(** * KokkosKernels_SimpleUtils: prefix sums, reductions and the tolerance
      equality check

    A shallow embedding of [src/stage/graph/utils/KokkosKernels_SimpleUtils.hpp]
    and the properties its specification states about it.

    Layout of the development:
    - [CInt]: the C++ integer types the views are instantiated with, as [Z]
      with the wrap-around of every conversion written out;
    - [Kokkos]: the execution engine the header calls into
      ([RangePolicy], [parallel_scan], [parallel_reduce], [fence]), run
      sequentially and recording every functor invocation it issues;
    - [Util]: the functors and drivers of the header, one definition per
      source symbol;
    - the theorems. *)

From Stdlib Require Import ZArith Lia.
From stdpp Require Import base option list.

Local Open Scope Z_scope.

(** ** C++ integer types *)

Module CInt.

Inductive int_size := W8 | W16 | W32 | W64.

Definition bits (s : int_size) : Z :=
  match s with W8 => 8 | W16 => 16 | W32 => 32 | W64 => 64 end.

(** An integer type is a width and a signedness: [int] is
    [IntType true W32], [size_t] is [IntType false W64]. *)
Record int_type := IntType { is_signed : bool; size_of : int_size }.

Definition modulus (t : int_type) : Z := 2 ^ bits (size_of t).
Definition half_modulus (t : int_type) : Z := 2 ^ (bits (size_of t) - 1).

Definition min_value (t : int_type) : Z :=
  if is_signed t then - half_modulus t else 0.
Definition max_value (t : int_type) : Z :=
  if is_signed t then half_modulus t - 1 else modulus t - 1.

Definition in_range (t : int_type) (z : Z) : Prop :=
  min_value t <= z <= max_value t.

Definition in_rangeb (t : int_type) (z : Z) : bool :=
  (min_value t <=? z) && (z <=? max_value t).

(** Conversion of an integer value to type [t]: [static_cast<t>(z)],
    [t (z)] and every implicit conversion.  Reduction modulo [2^bits],
    read back in two's complement for a signed [t]. *)
Definition cast (t : int_type) (z : Z) : Z :=
  if is_signed t
  then (z + half_modulus t) mod modulus t - half_modulus t
  else z mod modulus t.

(** Arithmetic of type [t]: the operation on the mathematical values,
    converted back to [t]. *)
Definition add (t : int_type) (x y : Z) : Z := cast t (x + y).
Definition sub (t : int_type) (x y : Z) : Z := cast t (x - y).

Definition size_t : int_type := IntType false W64.
Definition uint8_t : int_type := IntType false W8.
Definition int8_t : int_type := IntType true W8.
Definition int32_t : int_type := IntType true W32.
Definition uint32_t : int_type := IntType false W32.
Definition int64_t : int_type := IntType true W64.

End CInt.

Import CInt.

(** ** The execution engine *)

Module Kokkos.

(** What the engine is observed to do: it invokes the functor's
    [operator()] at an index, and it drains its pending work. *)
Inductive event :=
| FunctorCall (ii : nat)
| FenceReached.

(** A computation handed to the engine fails when a functor reads a view
    outside its extent, and otherwise yields a value and the events it
    caused, in order. *)
Definition Exec (A : Type) : Type := option (A * list event).

Definition ret {A} (a : A) : Exec A := Some (a, []).

Definition bind {A B} (m : Exec A) (k : A -> Exec B) : Exec B :=
  match m with
  | None => None
  | Some (a, w) =>
      match k a with
      | None => None
      | Some (b, w') => Some (b, w ++ w')
      end
  end.

(** One invocation of a functor's [operator()] at index [ii]. *)
Definition invoke {A} (ii : nat) (r : option A) : Exec A :=
  match r with
  | None => None
  | Some a => Some (a, [FunctorCall ii])
  end.

Definition fence : Exec unit := Some (tt, [FenceReached]).

Definition result {A} (m : Exec A) : option A := fst <$> m.
Definition events {A} (m : Exec A) : option (list event) := snd <$> m.

(** [Kokkos::RangePolicy<ExecSpace>(work_begin, work_end)]: the indices
    [work_begin, work_end), none when [work_end <= work_begin]. *)
Record RangePolicy := my_exec_space { work_begin : Z; work_end : Z }.

Definition first_index (p : RangePolicy) : nat := Z.to_nat (work_begin p).
Definition work_count (p : RangePolicy) : nat :=
  Z.to_nat (work_end p - work_begin p).

(** A scan functor: [operator()(ii, update, final)] acting on the memory
    [M] its views refer to; it returns the memory and the accumulator
    after the call. *)
Definition scan_functor (M : Type) : Type :=
  M -> nat -> Z -> bool -> option (M * Z).

(** A reduction functor: [operator()(ii, update)]; its views are only
    read. *)
Definition reduce_functor : Type := nat -> Z -> option Z.

Fixpoint scan_loop {M} (f : scan_functor M) (ii count : nat)
    (mem : M) (update : Z) : Exec (M * Z) :=
  match count with
  | O => ret (mem, update)
  | S count' =>
      bind (invoke ii (f mem ii update true))
           (fun r => scan_loop f (S ii) count' (fst r) (snd r))
  end.

(** Modelled from the spec: [Kokkos::parallel_scan] is the engine's, not
    this header's.  The engine guarantees as-if-sequential semantics: the
    functor is invoked at every index of the range in ascending order with
    [final = true], the accumulator starting from zero and carried from
    one index to the next.  The memory after the scan and the last value
    of the accumulator are returned. *)
Definition parallel_scan {M} (policy : RangePolicy) (f : scan_functor M)
    (mem : M) : Exec (M * Z) :=
  scan_loop f (first_index policy) (work_count policy) mem 0.

Fixpoint reduce_loop (f : reduce_functor) (ii count : nat) (update : Z)
    : Exec Z :=
  match count with
  | O => ret update
  | S count' =>
      bind (invoke ii (f ii update))
           (fun update' => reduce_loop f (S ii) count' update')
  end.

(** Modelled from the spec: [Kokkos::parallel_reduce] is the engine's.
    With as-if-sequential semantics it folds the functor over the range
    from the identity of addition; the total is what the caller's output
    reference holds afterwards. *)
Definition parallel_reduce (policy : RangePolicy) (f : reduce_functor)
    : Exec Z :=
  reduce_loop f (first_index policy) (work_count policy) 0.

(** One pass of the functor over [count] indices from [ii], with a given
    [final] flag and nothing recorded. *)
Fixpoint pass {M} (f : scan_functor M) (final : bool) (ii count : nat)
    (mem : M) (update : Z) : option (M * Z) :=
  match count with
  | O => Some (mem, update)
  | S count' =>
      r ← f mem ii update final;
      pass f final (S ii) count' r.1 r.2
  end.

(** Modelled from the spec: the two-phase discipline of the engine's scan.
    The range is cut into consecutive chunks, one per worker.  The
    provisional pass runs the functor over every chunk with
    [final = false] from a zero accumulator to obtain the chunk's total;
    the confirmed pass then runs it over every chunk with [final = true],
    its accumulator starting from the totals of the chunks before it,
    joined with [combine]. *)
Fixpoint provisional_totals {M} (f : scan_functor M) (ii : nat)
    (chunks : list nat) (mem : M) : option (list Z) :=
  match chunks with
  | [] => Some []
  | c :: chunks' =>
      r ← pass f false ii c mem 0;
      totals ← provisional_totals f (ii + c) chunks' r.1;
      Some (r.2 :: totals)
  end.

Fixpoint confirmed_passes {M} (f : scan_functor M) (combine : Z -> Z -> Z)
    (ii : nat) (chunks : list nat) (totals : list Z) (mem : M) (offset : Z)
    : option (M * Z) :=
  match chunks, totals with
  | c :: chunks', total :: totals' =>
      r ← pass f true ii c mem offset;
      confirmed_passes f combine (ii + c) chunks' totals' r.1
                       (combine offset total)
  | _, _ => Some (mem, offset)
  end.

Definition two_phase_scan {M} (f : scan_functor M) (combine : Z -> Z -> Z)
    (chunks : list nat) (mem : M) : option (M * Z) :=
  totals ← provisional_totals f 0 chunks mem;
  confirmed_passes f combine 0 chunks totals mem 0.

End Kokkos.

(** ** The header *)

Module Util.

Import Kokkos.

Notation "'let*' x ':=' m 'in' k" := (bind m (fun x => k))
  (at level 10, x name, m at level 100, k at level 200, only parsing).

(** [ExclusiveParallelPrefixSum<view_t>::operator()], with
    [idx = view_t::value_type].  The accumulator [update] is a [size_t]
    whatever [idx] is: [update += val] converts [val] to [size_t] and adds
    modulo [2^64], [idx (update)] converts the accumulator to [idx]. *)
Definition ExclusiveParallelPrefixSum (idx : int_type)
    : scan_functor (list Z) :=
  fun array_sum ii update final =>
    val ← array_sum !! ii;
    let array_sum' :=
      if final then <[ii := cast idx update]> array_sum else array_sum in
    Some (array_sum', cast size_t (update + val)).

(** [InclusiveParallelPrefixSum<array_type>::operator()]. *)
Definition InclusiveParallelPrefixSum (idx : int_type)
    : scan_functor (list Z) :=
  fun array_sum ii update final =>
    val ← array_sum !! ii;
    let update' := cast size_t (update + val) in
    let array_sum' :=
      if final then <[ii := cast idx update']> array_sum else array_sum in
    Some (array_sum', update').

(** [kk_exclusive_parallel_prefix_sum<view_t, MyExecSpace>].  The
    parameter [num_elements] has type [view_t::value_type]: the count the
    caller passes is converted to [idx] on entry.  The view is returned as
    it is after the scan. *)
Definition kk_exclusive_parallel_prefix_sum (idx : int_type)
    (num_elements : Z) (arr : list Z) : Exec (list Z) :=
  let num_elements := cast idx num_elements in
  let* r := parallel_scan (my_exec_space 0 num_elements)
                          (ExclusiveParallelPrefixSum idx) arr in
  ret (fst r).

(** [kk_inclusive_parallel_prefix_sum<forward_array_type, MyExecSpace>]. *)
Definition kk_inclusive_parallel_prefix_sum (idx : int_type)
    (num_elements : Z) (arr : list Z) : Exec (list Z) :=
  let num_elements := cast idx num_elements in
  let* r := parallel_scan (my_exec_space 0 num_elements)
                          (InclusiveParallelPrefixSum idx) arr in
  ret (fst r).

(** [ReductionFunctor<view_t>::operator()]: the accumulator has the
    view's value type, [update += array_sum(ii)] is that type's addition. *)
Definition ReductionFunctor (value_type : int_type) (array_sum : list Z)
    : reduce_functor :=
  fun ii update =>
    val ← array_sum !! ii;
    Some (add value_type update val).

(** [DiffReductionFunctor<view_t, view2_t>::operator()].  The accumulator
    has the value type of [array_begins].  The difference and the sum are
    computed in types at least as wide as that one, because a value of
    that type is an operand of both, and the sum is then converted to it:
    the conversions in between are absorbed by the last one. *)
Definition DiffReductionFunctor (value_type : int_type)
    (array_begins array_ends : list Z) : reduce_functor :=
  fun ii update =>
    e ← array_ends !! ii;
    b ← array_begins !! ii;
    Some (cast value_type (update + (e - b))).

(** [kk_reduce_diff_view<view_t, view2_t, MyExecSpace>]; the result is the
    value left in [reduction].  [num_elements] is a [size_t]. *)
Definition kk_reduce_diff_view (value_type : int_type) (num_elements : Z)
    (smaller bigger : list Z) : Exec Z :=
  let num_elements := cast size_t num_elements in
  parallel_reduce (my_exec_space 0 num_elements)
                  (DiffReductionFunctor value_type smaller bigger).

(** [kk_reduce_view<view_t, MyExecSpace>]; the result is the value left in
    [reduction]. *)
Definition kk_reduce_view (value_type : int_type) (num_elements : Z)
    (arr : list Z) : Exec Z :=
  let num_elements := cast size_t num_elements in
  parallel_reduce (my_exec_space 0 num_elements)
                  (ReductionFunctor value_type arr).

Section IsIdentical.

(** [val_type] is [view_type2::non_const_value_type]. *)
Variable val_type : int_type.

(** Modelled from the spec: [Kokkos::Details::ArithTraits<val_type>::abs]
    of [Kokkos_ArithTraits.hpp], the [magnitude(x)] capability the
    header calls through.  It takes a [val_type] and returns a
    [mag_type], which for an integer type is the type itself. *)
Variable KAT_abs : Z -> Z.

(** [IsIdenticalFunctor<view_type1, view_type2, eps_type>::operator()].
    The difference is computed in a type at least as wide as
    [val_type] and converted to [val_type] when passed to [abs].  The
    counter [is_equal] is a [size_t]. *)
Definition IsIdenticalFunctor (view1 view2 : list Z) (eps : Z)
    : reduce_functor :=
  fun i is_equal =>
    x1 ← view1 !! i;
    x2 ← view2 !! i;
    let val_diff := KAT_abs (cast val_type (x1 - x2)) in
    Some (if eps <? val_diff then cast size_t (is_equal + 1)
          else is_equal).

(** [kk_is_identical_view<view_type1, view_type2, eps_type,
    MyExecSpace>]. *)
Definition kk_is_identical_view (view1 view2 : list Z) (eps : Z)
    : Exec bool :=
  if negb (length view1 =? length view2)%nat then ret false
  else
    let num_elements := Z.of_nat (length view1) in
    let* issame := parallel_reduce (my_exec_space 0 num_elements)
                     (IsIdenticalFunctor view1 view2 eps) in
    let* fenced := fence in
    if 0 <? issame then ret false else ret true.

End IsIdentical.

(** Modelled from the spec: [ArithTraits<T>::abs] for the integer types;
    the identity on an unsigned type, and [x >= 0 ? x : -x] in the type's
    arithmetic on a signed one. *)
Definition ArithTraits_abs (t : int_type) (x : Z) : Z :=
  if is_signed t then (if 0 <=? x then x else cast t (- x)) else x.

(** [KOKKOSKERNELS_MACRO_MIN(x, y)]. *)
Definition KOKKOSKERNELS_MACRO_MIN (x y : Z) : Z := if x <? y then x else y.

(** [KOKKOSKERNELS_MACRO_ABS(x)], for an [x] of the integer type [t]. *)
Definition KOKKOSKERNELS_MACRO_ABS (t : int_type) (x : Z) : Z :=
  ArithTraits_abs t x.

End Util.

Import Kokkos Util.

(** ** Specification-level functions

    The closed forms the loops of the engine are compared with. *)

Definition sum_Z (l : list Z) : Z := foldr Z.add 0 l.

(** The sum of a list in the arithmetic of type [t]: [s += x] over the
    elements. *)
Definition sum_in (t : int_type) (l : list Z) : Z := foldl (add t) 0 l.

Section PrefixStepShape.

Variable idx : int_type.

(** [out before after] is what a final invocation stores, given the
    accumulator before and after the element was added: the two scan
    functors differ in nothing else. *)
Variable out : Z -> Z -> Z.

Definition prefix_step : scan_functor (list Z) :=
  fun array_sum ii update final =>
    val ← array_sum !! ii;
    let update' := cast size_t (update + val) in
    Some (if final then <[ii := cast idx (out update update')]> array_sum
          else array_sum,
          update').

(** The accumulator after the elements of [l] were added to [update]. *)
Definition carried (update : Z) (l : list Z) : Z :=
  foldl (fun u x => cast size_t (u + x)) update l.

(** What the final invocations store over the elements [l]. *)
Fixpoint scanned (update : Z) (l : list Z) : list Z :=
  match l with
  | [] => []
  | x :: l' =>
      let update' := cast size_t (update + x) in
      cast idx (out update update') :: scanned update' l'
  end.

(** The view after the first [n] entries were scanned. *)
Definition after_scan (n : nat) (arr : list Z) : list Z :=
  scanned 0 (take n arr) ++ drop n arr.

End PrefixStepShape.


(** What one call of [DiffReductionFunctor] adds, on the pair
    [(begins[i], ends[i])]. *)
Definition diff_step (t : int_type) (update : Z) (p : Z * Z) : Z :=
  cast t (update + (p.2 - p.1)).

Section MismatchCount.

Variable val_type : int_type.
Variable KAT_abs : Z -> Z.

(** The magnitude of the difference of a pair of entries, as the functor
    computes it. *)
Definition val_diff (p : Z * Z) : Z := KAT_abs (cast val_type (p.1 - p.2)).

(** The pair differs beyond the tolerance. *)
Definition exceeds (eps : Z) (p : Z * Z) : bool := eps <? val_diff p.

(** The number of index positions at which the two views differ beyond
    the tolerance. *)
Definition mismatch_count (view1 view2 : list Z) (eps : Z) : nat :=
  length (List.filter (exceeds eps) (zip view1 view2)).

Definition count_step (eps : Z) (is_equal : Z) (p : Z * Z) : Z :=
  if exceeds eps p then cast size_t (is_equal + 1) else is_equal.

End MismatchCount.

(** ** Facts about the integer types *)

Section CIntFacts.

Variable t : int_type.

Lemma modulus_pos : 0 < modulus t.
Proof. unfold modulus. destruct (size_of t); reflexivity. Qed.

Lemma modulus_twice_half : modulus t = 2 * half_modulus t.
Proof. unfold modulus, half_modulus. destruct (size_of t); reflexivity. Qed.

Lemma modulus_divides_size_t : exists k, modulus size_t = k * modulus t.
Proof.
  unfold modulus. destruct (size_of t); simpl.
  - exists (2 ^ 56). reflexivity.
  - exists (2 ^ 48). reflexivity.
  - exists (2 ^ 32). reflexivity.
  - exists 1. reflexivity.
Qed.

(** A conversion changes its argument by a multiple of the modulus. *)
Lemma cast_eq_shift (z : Z) : exists k, cast t z = z + k * modulus t.
Proof.
  pose proof modulus_pos as Hm. unfold cast. destruct (is_signed t).
  - exists (- ((z + half_modulus t) / modulus t)).
    pose proof (Z.div_mod (z + half_modulus t) (modulus t)). lia.
  - exists (- (z / modulus t)).
    pose proof (Z.div_mod z (modulus t)). lia.
Qed.

Lemma cast_in_range (z : Z) : in_range t (cast t z).
Proof.
  pose proof modulus_pos as Hm. pose proof modulus_twice_half as Hh.
  unfold in_range, min_value, max_value, cast. destruct (is_signed t).
  - pose proof (Z.mod_pos_bound (z + half_modulus t) (modulus t) Hm). lia.
  - pose proof (Z.mod_pos_bound z (modulus t) Hm). lia.
Qed.

Lemma cast_id (z : Z) : in_range t z -> cast t z = z.
Proof.
  pose proof modulus_pos as Hm. pose proof modulus_twice_half as Hh.
  unfold in_range, min_value, max_value, cast.
  destruct (is_signed t); intros Hz.
  - rewrite Z.mod_small by lia. lia.
  - apply Z.mod_small. lia.
Qed.

(** Two values that differ by a multiple of the modulus convert alike. *)
Lemma cast_shift (z k : Z) : cast t (z + k * modulus t) = cast t z.
Proof.
  unfold cast. destruct (is_signed t).
  - replace (z + k * modulus t + half_modulus t)
      with (z + half_modulus t + k * modulus t) by lia.
    now rewrite Z.mod_add by (pose proof modulus_pos; lia).
  - now rewrite Z.mod_add by (pose proof modulus_pos; lia).
Qed.

Lemma cast_idem (z : Z) : cast t (cast t z) = cast t z.
Proof. apply cast_id, cast_in_range. Qed.

Lemma cast_add_l (x y : Z) : cast t (cast t x + y) = cast t (x + y).
Proof.
  destruct (cast_eq_shift x) as [k ->].
  replace (x + k * modulus t + y) with (x + y + k * modulus t) by lia.
  apply cast_shift.
Qed.

Lemma cast_add_r (x y : Z) : cast t (x + cast t y) = cast t (x + y).
Proof. rewrite (Z.add_comm x), cast_add_l. f_equal. lia. Qed.

Lemma cast_sub_l (x y : Z) : cast t (cast t x - y) = cast t (x - y).
Proof. unfold Z.sub. apply cast_add_l. Qed.

Lemma cast_sub_r (x y : Z) : cast t (x - cast t y) = cast t (x - y).
Proof.
  destruct (cast_eq_shift y) as [k ->].
  replace (x - (y + k * modulus t)) with (x - y + (- k) * modulus t) by lia.
  apply cast_shift.
Qed.

End CIntFacts.

(** Going through [size_t] on the way to [t] loses nothing: every type here
    is at most as wide as [size_t]. *)
Lemma cast_via_size_t (t : int_type) (z : Z) :
  cast t (cast size_t z) = cast t z.
Proof.
  destruct (cast_eq_shift size_t z) as [k ->].
  destruct (modulus_divides_size_t t) as [q ->].
  rewrite Z.mul_assoc. apply cast_shift.
Qed.

Lemma size_t_range (z : Z) : in_range size_t z <-> 0 <= z < 2 ^ 64.
Proof. unfold in_range, min_value, max_value, modulus. simpl. lia. Qed.

(** A non-negative value of any of the types is a [size_t] value. *)
Lemma in_range_size_t (t : int_type) (z : Z) :
  0 <= z -> in_range t z -> in_range size_t z.
Proof.
  intros Hz [_ Hmax]. apply size_t_range. split; [exact Hz|].
  revert Hmax. unfold max_value, half_modulus, modulus.
  destruct t as [[] []]; simpl; lia.
Qed.

(** ** The engine's loops *)

Lemma sum_Z_app (l k : list Z) : sum_Z (l ++ k) = sum_Z l + sum_Z k.
Proof. induction l as [|x l IH]; simpl; [reflexivity|]. rewrite IH. lia. Qed.

Lemma sum_Z_take_S (l : list Z) (i : nat) (x : Z) :
  l !! i = Some x -> sum_Z (take (S i) l) = sum_Z (take i l) + x.
Proof.
  intros Hx. rewrite (take_S_r l i x Hx), sum_Z_app. simpl. lia.
Qed.

(** The sequential scan is the confirmed pass alone, and it invokes the
    functor once at every index of the range. *)
Lemma scan_loop_pass {M} (f : scan_functor M) (count ii : nat) (mem : M)
    (update : Z) :
  scan_loop f ii count mem update =
  r ← pass f true ii count mem update; Some (r, FunctorCall <$> seq ii count).
Proof.
  revert ii mem update.
  induction count as [|count IH]; intros ii mem update; simpl; [reflexivity|].
  destruct (f mem ii update true) as [[mem' update']|]; simpl; [|reflexivity].
  rewrite IH. destruct (pass f true (S ii) count mem' update'); reflexivity.
Qed.

Lemma reduce_loop_events (f : reduce_functor) (count ii : nat) (update : Z)
    (r : Z) (w : list event) :
  reduce_loop f ii count update = Some (r, w) ->
  w = FunctorCall <$> seq ii count.
Proof.
  revert ii update r w.
  induction count as [|count IH]; intros ii update r w; simpl.
  - intros [= _ <-]. reflexivity.
  - destruct (f ii update) as [update'|]; simpl; [|discriminate].
    destruct (reduce_loop f (S ii) count update') as [[r' w']|] eqn:Hloop;
      [|discriminate].
    intros [= _ <-]. simpl. f_equal. eapply IH, Hloop.
Qed.

(** ** The two scan functors share one shape *)

Section PrefixStep.

Variable idx : int_type.
Variable out : Z -> Z -> Z.

Lemma length_scanned (update : Z) (l : list Z) :
  length (scanned idx out update l) = length l.
Proof.
  revert update. induction l as [|x l IH]; intros update; simpl; auto.
Qed.

Lemma carried_app (update : Z) (l k : list Z) :
  carried update (l ++ k) = carried (carried update l) k.
Proof. unfold carried. apply foldl_app. Qed.

Lemma carried_sum (update : Z) (l : list Z) :
  cast size_t (carried update l) = cast size_t (update + sum_Z l).
Proof.
  revert update. induction l as [|x l IH]; intros update; simpl.
  - f_equal. lia.
  - rewrite IH, cast_add_l. f_equal. lia.
Qed.

Lemma carried_in_range (update : Z) (l : list Z) :
  in_range size_t update -> in_range size_t (carried update l).
Proof.
  revert update. induction l as [|x l IH]; intros update Hu; simpl; auto.
  apply IH, cast_in_range.
Qed.

Lemma carried_zero (l : list Z) : carried 0 l = cast size_t (sum_Z l).
Proof.
  rewrite <- (cast_id size_t (carried 0 l)).
  - apply carried_sum.
  - apply carried_in_range, size_t_range. lia.
Qed.

Lemma lookup_scanned (update : Z) (l : list Z) (k : nat) (x : Z) :
  l !! k = Some x ->
  scanned idx out update l !! k =
  Some (cast idx (out (carried update (take k l))
                      (carried update (take (S k) l)))).
Proof.
  revert update k. induction l as [|y l IH]; intros update k; [discriminate|].
  destruct k as [|k]; simpl.
  - intros _. reflexivity.
  - intros Hx. apply (IH _ _ Hx).
Qed.

Lemma prefix_step_in_range (arr : list Z) (ii : nat) (update : Z)
    (final : bool) (x : Z) :
  arr !! ii = Some x ->
  (prefix_step idx out) arr ii update final =
  Some (if final
        then <[ii := cast idx (out update (cast size_t (update + x)))]> arr
        else arr,
        cast size_t (update + x)).
Proof. intros Hx. unfold prefix_step. rewrite Hx. reflexivity. Qed.

Lemma prefix_step_out_of_range (arr : list Z) (ii : nat) (update : Z)
    (final : bool) :
  arr !! ii = None -> (prefix_step idx out) arr ii update final = None.
Proof. intros Hx. unfold prefix_step. rewrite Hx. reflexivity. Qed.

(** A confirmed pass over the middle part [l] of the array. *)
Lemma pass_final (l pre post : list Z) (update : Z) :
  pass (prefix_step idx out) true (length pre) (length l)
    (pre ++ l ++ post) update =
  Some (pre ++ scanned idx out update l ++ post, carried update l).
Proof.
  revert pre update. induction l as [|x l IH]; intros pre update; simpl.
  - reflexivity.
  - rewrite (prefix_step_in_range _ _ _ _ x)
      by (apply list_lookup_middle; reflexivity).
    simpl. rewrite insert_app_r_alt by lia.
    rewrite Nat.sub_diag. simpl.
    specialize (IH (pre ++ [cast idx (out update (cast size_t (update + x)))])
                   (cast size_t (update + x))).
    rewrite length_app, Nat.add_1_r, <- !app_assoc in IH. exact IH.
Qed.


(** Reading past the end of the view aborts the pass. *)
Lemma pass_out_of_range (final : bool) (count ii : nat) (arr : list Z)
    (update : Z) :
  (length arr < ii + count)%nat -> (ii <= length arr)%nat ->
  pass (prefix_step idx out) final ii count arr update = None.
Proof.
  revert ii arr update.
  induction count as [|count IH]; intros ii arr update Hlt Hle; [lia|].
  simpl. destruct (arr !! ii) as [x|] eqn:Hx.
  - rewrite (prefix_step_in_range _ _ _ _ x Hx). simpl.
    apply lookup_lt_Some in Hx.
    apply IH; destruct final; rewrite ?length_insert; lia.
  - rewrite (prefix_step_out_of_range _ _ _ _ Hx). reflexivity.
Qed.

(** The scan of the first [n] entries of a view. *)
Lemma parallel_scan_prefix_step (n : Z) (arr : list Z) :
  0 <= n <= Z.of_nat (length arr) ->
  parallel_scan (my_exec_space 0 n) (prefix_step idx out) arr =
  Some (scanned idx out 0 (take (Z.to_nat n) arr) ++ drop (Z.to_nat n) arr,
        cast size_t (sum_Z (take (Z.to_nat n) arr)),
        FunctorCall <$> seq 0 (Z.to_nat n)).
Proof.
  intros Hn. unfold parallel_scan, first_index, work_count. simpl.
  rewrite Z.sub_0_r, scan_loop_pass.
  pose proof (pass_final (take (Z.to_nat n) arr) [] (drop (Z.to_nat n) arr) 0)
    as Hpass.
  simpl in Hpass. rewrite take_drop, length_take in Hpass.
  rewrite Nat.min_l in Hpass by lia.
  change (Z.to_nat 0) with 0%nat.
  rewrite Hpass. simpl. rewrite carried_zero. reflexivity.
Qed.

End PrefixStep.

Lemma ExclusiveParallelPrefixSum_shape (idx : int_type) :
  ExclusiveParallelPrefixSum idx = prefix_step idx (fun before _ => before).
Proof. reflexivity. Qed.

Lemma InclusiveParallelPrefixSum_shape (idx : int_type) :
  InclusiveParallelPrefixSum idx = prefix_step idx (fun _ after => after).
Proof. reflexivity. Qed.

(** ** A reduction functor that reads one element per index is a fold *)

Section ReduceFold.

Context {E : Type}.
Variable g : Z -> E -> Z.
Variable elems : list E.
Variable f : reduce_functor.

Hypothesis f_reads :
  forall (ii : nat) (update : Z), f ii update = g update <$> elems !! ii.

Lemma reduce_loop_fold (l pre post : list E) (update : Z) :
  elems = pre ++ l ++ post ->
  reduce_loop f (length pre) (length l) update =
  Some (foldl g update l, FunctorCall <$> seq (length pre) (length l)).
Proof.
  revert pre update. induction l as [|x l IH]; intros pre update Helems.
  - reflexivity.
  - assert (elems !! length pre = Some x) as Hx
      by (rewrite Helems; apply list_lookup_middle; reflexivity).
    simpl. rewrite f_reads, Hx. simpl.
    specialize (IH (pre ++ [x]) (g update x)).
    rewrite length_app, Nat.add_1_r, <- !app_assoc in IH.
    rewrite (IH Helems). reflexivity.
Qed.

Lemma parallel_reduce_fold (n : Z) :
  0 <= n <= Z.of_nat (length elems) ->
  parallel_reduce (my_exec_space 0 n) f =
  Some (foldl g 0 (take (Z.to_nat n) elems),
        FunctorCall <$> seq 0 (Z.to_nat n)).
Proof.
  intros Hn. unfold parallel_reduce, first_index, work_count. simpl.
  rewrite Z.sub_0_r. change (Z.to_nat 0) with 0%nat.
  pose proof (reduce_loop_fold (take (Z.to_nat n) elems) []
                (drop (Z.to_nat n) elems) 0) as Hloop.
  simpl in Hloop. rewrite take_drop, length_take in Hloop.
  rewrite Nat.min_l in Hloop by lia. apply Hloop. reflexivity.
Qed.

End ReduceFold.

Lemma in_rangeb_spec (t : int_type) (z : Z) :
  in_rangeb t z = true <-> in_range t z.
Proof. unfold in_rangeb, in_range. lia. Qed.

Ltac in_range_by_evaluation := apply in_rangeb_spec; vm_compute; reflexivity.

Lemma in_range_zero (t : int_type) : in_range t 0.
Proof.
  unfold in_range, min_value, max_value, half_modulus, modulus.
  destruct t as [[] []]; simpl; lia.
Qed.

Lemma foldl_add_cast (t : int_type) (l : list Z) (update : Z) :
  cast t (foldl (add t) update l) = cast t (update + sum_Z l).
Proof.
  revert update. induction l as [|x l IH]; intros update; simpl.
  - f_equal. lia.
  - rewrite IH. unfold add. rewrite cast_add_l. f_equal. lia.
Qed.

Lemma foldl_add_in_range (t : int_type) (l : list Z) (update : Z) :
  in_range t update -> in_range t (foldl (add t) update l).
Proof.
  revert update. induction l as [|x l IH]; intros update Hu; simpl; auto.
  apply IH, cast_in_range.
Qed.

(** Summing in the type is summing in [Z] and converting once. *)
Lemma sum_in_cast (t : int_type) (l : list Z) : sum_in t l = cast t (sum_Z l).
Proof.
  unfold sum_in. rewrite <- (cast_id t (foldl (add t) 0 l)).
  - apply foldl_add_cast.
  - apply foldl_add_in_range, in_range_zero.
Qed.

Lemma sum_in_exact (t : int_type) (l : list Z) :
  in_range t (sum_Z l) -> sum_in t l = sum_Z l.
Proof. intros Hl. rewrite sum_in_cast. apply cast_id, Hl. Qed.


(** ** What the two scans leave in the view *)

Section ScanResult.

Variable idx : int_type.
Variable out : Z -> Z -> Z.

Lemma length_after_scan (n : nat) (arr : list Z) :
  length (after_scan idx out n arr) = length arr.
Proof.
  unfold after_scan.
  rewrite length_app, length_scanned, <- length_app, take_drop. reflexivity.
Qed.

Lemma lookup_after_scan_lt (n k : nat) (arr : list Z) (x : Z) :
  (k < n)%nat -> arr !! k = Some x ->
  after_scan idx out n arr !! k =
  Some (cast idx (out (cast size_t (sum_Z (take k arr)))
                      (cast size_t (sum_Z (take (S k) arr))))).
Proof.
  intros Hk Hx. unfold after_scan.
  pose proof (lookup_lt_Some _ _ _ Hx) as Hlen.
  rewrite lookup_app_l by (rewrite length_scanned, length_take; lia).
  rewrite (lookup_scanned idx out 0 (take n arr) k x)
    by (rewrite lookup_take_lt by lia; exact Hx).
  rewrite !take_take, !carried_zero.
  rewrite (Nat.min_l k n), (Nat.min_l (S k) n) by lia. reflexivity.
Qed.

Lemma lookup_after_scan_ge (n k : nat) (arr : list Z) :
  (n <= k)%nat -> (n <= length arr)%nat ->
  after_scan idx out n arr !! k = arr !! k.
Proof.
  intros Hk Hn. unfold after_scan.
  rewrite lookup_app_r by (rewrite length_scanned, length_take; lia).
  rewrite length_scanned, length_take, Nat.min_l by lia.
  rewrite lookup_drop. f_equal. lia.
Qed.

Lemma after_scan_0 (arr : list Z) : after_scan idx out 0 arr = arr.
Proof. reflexivity. Qed.

End ScanResult.

Lemma kk_exclusive_parallel_prefix_sum_eq (idx : int_type) (n : Z)
    (arr : list Z) :
  in_range idx n -> 0 <= n <= Z.of_nat (length arr) ->
  kk_exclusive_parallel_prefix_sum idx n arr =
  Some (after_scan idx (fun before _ => before) (Z.to_nat n) arr,
        FunctorCall <$> seq 0 (Z.to_nat n)).
Proof.
  intros Hrange Hn. unfold kk_exclusive_parallel_prefix_sum.
  rewrite (cast_id idx n Hrange), ExclusiveParallelPrefixSum_shape.
  rewrite parallel_scan_prefix_step by exact Hn.
  simpl. rewrite app_nil_r. reflexivity.
Qed.

Lemma kk_inclusive_parallel_prefix_sum_eq (idx : int_type) (n : Z)
    (arr : list Z) :
  in_range idx n -> 0 <= n <= Z.of_nat (length arr) ->
  kk_inclusive_parallel_prefix_sum idx n arr =
  Some (after_scan idx (fun _ after => after) (Z.to_nat n) arr,
        FunctorCall <$> seq 0 (Z.to_nat n)).
Proof.
  intros Hrange Hn. unfold kk_inclusive_parallel_prefix_sum.
  rewrite (cast_id idx n Hrange), InclusiveParallelPrefixSum_shape.
  rewrite parallel_scan_prefix_step by exact Hn.
  simpl. rewrite app_nil_r. reflexivity.
Qed.

(** Entry [k] of an exclusive scan is the sum of the entries before it. *)
Lemma lookup_exclusive (idx : int_type) (n k : nat) (arr : list Z) (x : Z) :
  (k < n)%nat -> arr !! k = Some x ->
  after_scan idx (fun before _ => before) n arr !! k =
  Some (sum_in idx (take k arr)).
Proof.
  intros Hk Hx. rewrite (lookup_after_scan_lt _ _ _ _ _ x Hk Hx).
  rewrite cast_via_size_t, sum_in_cast. reflexivity.
Qed.

(** Entry [k] of an inclusive scan is the sum of the entries up to it. *)
Lemma lookup_inclusive (idx : int_type) (n k : nat) (arr : list Z) (x : Z) :
  (k < n)%nat -> arr !! k = Some x ->
  after_scan idx (fun _ after => after) n arr !! k =
  Some (sum_in idx (take (S k) arr)).
Proof.
  intros Hk Hx. rewrite (lookup_after_scan_lt _ _ _ _ _ x Hk Hx).
  rewrite cast_via_size_t, sum_in_cast. reflexivity.
Qed.

Lemma sum_in_take_S (t : int_type) (l : list Z) (i : nat) (x : Z) :
  l !! i = Some x -> sum_in t (take (S i) l) = add t (sum_in t (take i l)) x.
Proof.
  intros Hx. unfold add. rewrite !sum_in_cast, (sum_Z_take_S l i x Hx).
  symmetry. apply cast_add_l.
Qed.

(** ** Exclusive and inclusive prefix sums *)

(** C1.  For an array [A] of length [N] over the integer type [idx], with
    [N] passed as the [idx]-typed element count, the exclusive prefix sum
    returns an array of the same length whose entry 0 is 0 and whose entry
    [i] is the sum, in the arithmetic of [idx], of the original entries
    before [i]; equivalently every entry after the first is the entry
    before it plus the original entry before it.  Where that sum does not
    overflow [idx] the entry is the mathematical sum. *)
Theorem exclusive_prefix_sum_correct (idx : int_type) (A : list Z) (N : Z) :
  N = Z.of_nat (length A) -> in_range idx N ->
  exists A_new : list Z,
    result (kk_exclusive_parallel_prefix_sum idx N A) = Some A_new /\
    length A_new = length A /\
    ((0 < length A)%nat -> A_new !! 0%nat = Some 0) /\
    (forall i : nat, (i < length A)%nat ->
       A_new !! i = Some (sum_in idx (take i A))) /\
    (forall (i : nat) (prev a : Z),
       (S i < length A)%nat -> A_new !! i = Some prev -> A !! i = Some a ->
       A_new !! S i = Some (add idx prev a)) /\
    (forall i : nat, (i < length A)%nat ->
       in_range idx (sum_Z (take i A)) ->
       A_new !! i = Some (sum_Z (take i A))).
Proof.
  intros HN Hrange.
  assert (forall i : nat, (i < length A)%nat ->
            after_scan idx (fun before _ => before) (Z.to_nat N) A !! i =
            Some (sum_in idx (take i A))) as Hentry.
  { intros i Hi. destruct (lookup_lt_is_Some_2 A i Hi) as [x Hx].
    apply (lookup_exclusive idx _ i A x); [lia | exact Hx]. }
  exists (after_scan idx (fun before _ => before) (Z.to_nat N) A).
  split; [|split; [|split; [|split; [|split]]]].
  - rewrite kk_exclusive_parallel_prefix_sum_eq by (auto; lia). reflexivity.
  - apply length_after_scan.
  - intros Hpos. rewrite (Hentry 0%nat Hpos). reflexivity.
  - exact Hentry.
  - intros i prev a Hi Hprev Ha.
    rewrite Hentry in Hprev by lia. injection Hprev as <-.
    rewrite Hentry by lia. f_equal. apply sum_in_take_S, Ha.
  - intros i Hi Hexact. rewrite (Hentry i Hi). f_equal.
    apply sum_in_exact, Hexact.
Qed.

Lemma exclusive_prefix_sum_correct_witness :
  exists A_new : list Z,
    result (kk_exclusive_parallel_prefix_sum int32_t 4 [1; 2; 3; 4])
      = Some A_new /\
    length A_new = length [1; 2; 3; 4] /\
    ((0 < length [1; 2; 3; 4])%nat -> A_new !! 0%nat = Some 0) /\
    (forall i : nat, (i < length [1; 2; 3; 4])%nat ->
       A_new !! i = Some (sum_in int32_t (take i [1; 2; 3; 4]))) /\
    (forall (i : nat) (prev a : Z),
       (S i < length [1; 2; 3; 4])%nat -> A_new !! i = Some prev ->
       [1; 2; 3; 4] !! i = Some a ->
       A_new !! S i = Some (add int32_t prev a)) /\
    (forall i : nat, (i < length [1; 2; 3; 4])%nat ->
       in_range int32_t (sum_Z (take i [1; 2; 3; 4])) ->
       A_new !! i = Some (sum_Z (take i [1; 2; 3; 4]))).
Proof.
  apply (exclusive_prefix_sum_correct int32_t [1; 2; 3; 4] 4).
  - reflexivity.
  - in_range_by_evaluation.
Defined.

(** C3.  For an array [A] of length [N] and every index [i] below [N], the
    entry of the inclusive prefix sum at [i] is the entry of the exclusive
    prefix sum at [i] plus the original [A[i]], in the arithmetic of the
    value type; where that addition does not overflow it is the
    mathematical one. *)
Theorem inclusive_is_exclusive_plus_original (idx : int_type) (A : list Z)
    (N : Z) :
  N = Z.of_nat (length A) -> in_range idx N ->
  exists inclusive exclusive : list Z,
    result (kk_inclusive_parallel_prefix_sum idx N A) = Some inclusive /\
    result (kk_exclusive_parallel_prefix_sum idx N A) = Some exclusive /\
    forall (i : nat) (a : Z), A !! i = Some a ->
      exists e : Z,
        exclusive !! i = Some e /\ inclusive !! i = Some (add idx e a) /\
        (in_range idx (e + a) -> inclusive !! i = Some (e + a)).
Proof.
  intros HN Hrange.
  exists (after_scan idx (fun _ after => after) (Z.to_nat N) A),
         (after_scan idx (fun before _ => before) (Z.to_nat N) A).
  split; [|split].
  - rewrite kk_inclusive_parallel_prefix_sum_eq by (auto; lia). reflexivity.
  - rewrite kk_exclusive_parallel_prefix_sum_eq by (auto; lia). reflexivity.
  - intros i a Ha. pose proof (lookup_lt_Some _ _ _ Ha) as Hi.
    assert (after_scan idx (fun _ after => after) (Z.to_nat N) A !! i =
            Some (add idx (sum_in idx (take i A)) a)) as Hinclusive.
    { rewrite (lookup_inclusive idx _ i A a) by (lia || exact Ha).
      f_equal. apply sum_in_take_S, Ha. }
    exists (sum_in idx (take i A)). split; [|split].
    + apply (lookup_exclusive idx _ i A a); [lia | exact Ha].
    + exact Hinclusive.
    + intros Hexact. rewrite Hinclusive. f_equal. apply cast_id, Hexact.
Qed.

Lemma inclusive_is_exclusive_plus_original_witness :
  exists inclusive exclusive : list Z,
    result (kk_inclusive_parallel_prefix_sum uint8_t 3 [200; 100; 7])
      = Some inclusive /\
    result (kk_exclusive_parallel_prefix_sum uint8_t 3 [200; 100; 7])
      = Some exclusive /\
    forall (i : nat) (a : Z), [200; 100; 7] !! i = Some a ->
      exists e : Z,
        exclusive !! i = Some e /\ inclusive !! i = Some (add uint8_t e a) /\
        (in_range uint8_t (e + a) -> inclusive !! i = Some (e + a)).
Proof.
  apply (inclusive_is_exclusive_plus_original uint8_t [200; 100; 7] 3).
  - reflexivity.
  - in_range_by_evaluation.
Defined.

(** C10.  For an element count [n] between 0 and the length of [A], both
    prefix sums keep the length of [A] and leave every entry at an index
    [>= n] as it was; with [n = 0] they return [A] itself. *)
Theorem prefix_sums_frame (idx : int_type) (A : list Z) (n : Z) :
  0 <= n <= Z.of_nat (length A) -> in_range idx n ->
  exists exclusive inclusive : list Z,
    result (kk_exclusive_parallel_prefix_sum idx n A) = Some exclusive /\
    result (kk_inclusive_parallel_prefix_sum idx n A) = Some inclusive /\
    length exclusive = length A /\ length inclusive = length A /\
    (forall i : nat, n <= Z.of_nat i ->
       exclusive !! i = A !! i /\ inclusive !! i = A !! i) /\
    (n = 0 -> exclusive = A /\ inclusive = A).
Proof.
  intros Hn Hrange.
  exists (after_scan idx (fun before _ => before) (Z.to_nat n) A),
         (after_scan idx (fun _ after => after) (Z.to_nat n) A).
  split; [|split; [|split; [|split; [|split]]]].
  - rewrite kk_exclusive_parallel_prefix_sum_eq by auto. reflexivity.
  - rewrite kk_inclusive_parallel_prefix_sum_eq by auto. reflexivity.
  - apply length_after_scan.
  - apply length_after_scan.
  - intros i Hi. split; apply lookup_after_scan_ge; lia.
  - intros ->. split; reflexivity.
Qed.

Lemma prefix_sums_frame_witness :
  exists exclusive inclusive : list Z,
    result (kk_exclusive_parallel_prefix_sum int32_t 2 [5; 6; 7; 8])
      = Some exclusive /\
    result (kk_inclusive_parallel_prefix_sum int32_t 2 [5; 6; 7; 8])
      = Some inclusive /\
    length exclusive = length [5; 6; 7; 8] /\
    length inclusive = length [5; 6; 7; 8] /\
    (forall i : nat, 2 <= Z.of_nat i ->
       exclusive !! i = [5; 6; 7; 8] !! i /\
       inclusive !! i = [5; 6; 7; 8] !! i) /\
    (2 = 0 -> exclusive = [5; 6; 7; 8] /\ inclusive = [5; 6; 7; 8]).
Proof.
  apply (prefix_sums_frame int32_t [5; 6; 7; 8] 2).
  - simpl. lia.
  - in_range_by_evaluation.
Defined.

(** The accumulator of both scans, and what they store through it. *)
Lemma parallel_scan_exclusive (idx : int_type) (A : list Z) (n : Z) :
  0 <= n <= Z.of_nat (length A) ->
  result (parallel_scan (my_exec_space 0 n) (ExclusiveParallelPrefixSum idx) A)
  = Some (after_scan idx (fun before _ => before) (Z.to_nat n) A,
          cast size_t (sum_Z (take (Z.to_nat n) A))).
Proof.
  intros Hn. rewrite ExclusiveParallelPrefixSum_shape.
  rewrite parallel_scan_prefix_step by exact Hn. reflexivity.
Qed.

Lemma parallel_scan_inclusive (idx : int_type) (A : list Z) (n : Z) :
  0 <= n <= Z.of_nat (length A) ->
  result (parallel_scan (my_exec_space 0 n) (InclusiveParallelPrefixSum idx) A)
  = Some (after_scan idx (fun _ after => after) (Z.to_nat n) A,
          cast size_t (sum_Z (take (Z.to_nat n) A))).
Proof.
  intros Hn. rewrite InclusiveParallelPrefixSum_shape.
  rewrite parallel_scan_prefix_step by exact Hn. reflexivity.
Qed.

(** C2, as the specification states it, fails: scanning the [uint8_t] array
    [200, 100] leaves the accumulator at 300, which is no [uint8_t] value;
    the entry stored from it is 300 converted to [uint8_t], 44. *)
Lemma accumulator_outside_value_type :
  result (parallel_scan (my_exec_space 0 2)
            (InclusiveParallelPrefixSum uint8_t) [200; 100])
  = Some ([200; 44], 300) /\
  ~ in_range uint8_t 300.
Proof.
  split; [reflexivity|].
  intros Hrange. apply in_rangeb_spec in Hrange. discriminate Hrange.
Qed.

(** C2, amended.  The accumulator of a prefix scan is a [size_t] whatever
    the value type [idx] of the array is: after a scan of the first [n]
    entries it is a [size_t] value, the sum of these entries modulo [2^64],
    the same for both scans.  Every entry written is the accumulator
    converted to [idx], and for each integer type [idx] this is the prefix
    sum computed in the arithmetic of [idx]. *)
Theorem scan_accumulator_is_size_t (idx : int_type) (A : list Z) (n : Z) :
  0 <= n <= Z.of_nat (length A) ->
  exists (exclusive inclusive : list Z) (update : Z),
    result (parallel_scan (my_exec_space 0 n)
              (ExclusiveParallelPrefixSum idx) A) = Some (exclusive, update) /\
    result (parallel_scan (my_exec_space 0 n)
              (InclusiveParallelPrefixSum idx) A) = Some (inclusive, update) /\
    in_range size_t update /\
    update = sum_in size_t (take (Z.to_nat n) A) /\
    forall i : nat, Z.of_nat i < n ->
      exclusive !! i = Some (cast idx (sum_in size_t (take i A))) /\
      inclusive !! i = Some (cast idx (sum_in size_t (take (S i) A))) /\
      exclusive !! i = Some (sum_in idx (take i A)) /\
      inclusive !! i = Some (sum_in idx (take (S i) A)).
Proof.
  intros Hn.
  exists (after_scan idx (fun before _ => before) (Z.to_nat n) A),
         (after_scan idx (fun _ after => after) (Z.to_nat n) A),
         (cast size_t (sum_Z (take (Z.to_nat n) A))).
  split; [|split; [|split; [|split]]].
  - apply parallel_scan_exclusive, Hn.
  - apply parallel_scan_inclusive, Hn.
  - apply cast_in_range.
  - symmetry. apply sum_in_cast.
  - intros i Hi.
    destruct (lookup_lt_is_Some_2 A i) as [x Hx]; [lia|].
    rewrite !sum_in_cast, !cast_via_size_t, <- !sum_in_cast.
    rewrite (lookup_exclusive idx _ i A x), (lookup_inclusive idx _ i A x)
      by (lia || exact Hx).
    repeat split.
Qed.

Lemma scan_accumulator_is_size_t_witness :
  exists (exclusive inclusive : list Z) (update : Z),
    result (parallel_scan (my_exec_space 0 2)
              (ExclusiveParallelPrefixSum uint8_t) [200; 100])
      = Some (exclusive, update) /\
    result (parallel_scan (my_exec_space 0 2)
              (InclusiveParallelPrefixSum uint8_t) [200; 100])
      = Some (inclusive, update) /\
    in_range size_t update /\
    update = sum_in size_t (take (Z.to_nat 2) [200; 100]) /\
    forall i : nat, Z.of_nat i < 2 ->
      exclusive !! i
        = Some (cast uint8_t (sum_in size_t (take i [200; 100]))) /\
      inclusive !! i
        = Some (cast uint8_t (sum_in size_t (take (S i) [200; 100]))) /\
      exclusive !! i = Some (sum_in uint8_t (take i [200; 100])) /\
      inclusive !! i = Some (sum_in uint8_t (take (S i) [200; 100])).
Proof.
  apply (scan_accumulator_is_size_t uint8_t [200; 100] 2). simpl. lia.
Defined.

(** ** Reductions *)

Lemma ReductionFunctor_reads (t : int_type) (arr : list Z) (ii : nat)
    (update : Z) :
  ReductionFunctor t arr ii update = add t update <$> arr !! ii.
Proof. unfold ReductionFunctor. destruct (arr !! ii); reflexivity. Qed.

Lemma kk_reduce_view_eq (t : int_type) (n : Z) (arr : list Z) :
  in_range size_t n -> n <= Z.of_nat (length arr) ->
  kk_reduce_view t n arr =
  Some (sum_in t (take (Z.to_nat n) arr), FunctorCall <$> seq 0 (Z.to_nat n)).
Proof.
  intros Hrange Hn. unfold kk_reduce_view. rewrite (cast_id size_t n Hrange).
  apply size_t_range in Hrange.
  apply (parallel_reduce_fold (add t) arr); [apply ReductionFunctor_reads|lia].
Qed.

(** C4.  For an array [A] of length [N > 0], the sum reduction of [A] is
    the entry at index [N - 1] of the inclusive prefix sum of [A]. *)
Theorem reduction_is_last_inclusive_entry (idx : int_type) (A : list Z)
    (N : Z) :
  0 < N -> N = Z.of_nat (length A) -> in_range idx N ->
  exists (reduction : Z) (scanned_copy : list Z),
    result (kk_reduce_view idx N A) = Some reduction /\
    result (kk_inclusive_parallel_prefix_sum idx N A) = Some scanned_copy /\
    scanned_copy !! Z.to_nat (N - 1) = Some reduction.
Proof.
  intros Hpos HN Hrange.
  exists (sum_in idx (take (Z.to_nat N) A)),
         (after_scan idx (fun _ after => after) (Z.to_nat N) A).
  split; [|split].
  - rewrite kk_reduce_view_eq; [reflexivity| |lia].
    apply (in_range_size_t idx); [lia | exact Hrange].
  - rewrite kk_inclusive_parallel_prefix_sum_eq by (auto; lia). reflexivity.
  - destruct (lookup_lt_is_Some_2 A (Z.to_nat (N - 1))) as [x Hx]; [lia|].
    rewrite (lookup_inclusive idx _ _ A x) by (lia || exact Hx).
    do 3 f_equal. lia.
Qed.

Lemma reduction_is_last_inclusive_entry_witness :
  exists (reduction : Z) (scanned_copy : list Z),
    result (kk_reduce_view int32_t 4 [1; 2; 3; 4]) = Some reduction /\
    result (kk_inclusive_parallel_prefix_sum int32_t 4 [1; 2; 3; 4])
      = Some scanned_copy /\
    scanned_copy !! Z.to_nat (4 - 1) = Some reduction.
Proof.
  apply (reduction_is_last_inclusive_entry int32_t [1; 2; 3; 4] 4).
  - lia.
  - reflexivity.
  - in_range_by_evaluation.
Defined.

Lemma DiffReductionFunctor_reads (t : int_type) (begins ends : list Z)
    (ii : nat) (update : Z) :
  DiffReductionFunctor t begins ends ii update =
  diff_step t update <$> zip begins ends !! ii.
Proof.
  unfold DiffReductionFunctor. rewrite lookup_zip_with.
  destruct (ends !! ii), (begins !! ii); reflexivity.
Qed.

Lemma foldl_diff_step_cast (t : int_type) (begins ends : list Z) (update : Z) :
  cast t (foldl (diff_step t) update (zip begins ends)) =
  cast t (update + sum_Z (zip_with Z.sub ends begins)).
Proof.
  revert ends update.
  induction begins as [|b begins IH]; intros [|e ends] update; simpl;
    try (f_equal; lia).
  rewrite IH. unfold diff_step. simpl. rewrite cast_add_l. f_equal. lia.
Qed.

Lemma foldl_diff_step_in_range (t : int_type) (l : list (Z * Z)) (update : Z) :
  in_range t update -> in_range t (foldl (diff_step t) update l).
Proof.
  revert update. induction l as [|p l IH]; intros update Hu; simpl; auto.
  apply IH, cast_in_range.
Qed.

Lemma sum_Z_zip_sub (begins ends : list Z) :
  length begins = length ends ->
  sum_Z (zip_with Z.sub ends begins) = sum_Z ends - sum_Z begins.
Proof.
  revert ends. induction begins as [|b begins IH]; intros [|e ends] Hlen;
    simpl in *; try discriminate; [reflexivity|].
  rewrite IH by lia. lia.
Qed.

Lemma kk_reduce_diff_view_eq (t : int_type) (n : Z) (begins ends : list Z) :
  in_range size_t n ->
  n = Z.of_nat (length begins) -> n = Z.of_nat (length ends) ->
  kk_reduce_diff_view t n begins ends =
  Some (cast t (sum_Z (zip_with Z.sub ends begins)),
        FunctorCall <$> seq 0 (Z.to_nat n)).
Proof.
  intros Hrange Hb He. unfold kk_reduce_diff_view.
  rewrite (cast_id size_t n Hrange).
  rewrite (parallel_reduce_fold (diff_step t) (zip begins ends)).
  - rewrite take_ge by (rewrite length_zip_with; lia).
    rewrite <- (cast_id t (foldl _ _ _))
      by apply foldl_diff_step_in_range, in_range_zero.
    rewrite foldl_diff_step_cast. reflexivity.
  - apply DiffReductionFunctor_reads.
  - rewrite length_zip_with. lia.
Qed.

(** C5.  For arrays [begins] and [ends] of equal length [N] over an integer
    type, the diff reduction is the sum of the differences
    [ends[i] - begins[i]], in the arithmetic of the type, and it equals the
    reduction of [ends] minus the reduction of [begins]; where nothing
    overflows the type these are the mathematical sum and difference. *)
Theorem diff_reduction_correct (value_type : int_type) (begins ends : list Z)
    (N : Z) :
  N = Z.of_nat (length begins) -> N = Z.of_nat (length ends) ->
  in_range size_t N ->
  exists diff reduction_ends reduction_begins : Z,
    result (kk_reduce_diff_view value_type N begins ends) = Some diff /\
    result (kk_reduce_view value_type N ends) = Some reduction_ends /\
    result (kk_reduce_view value_type N begins) = Some reduction_begins /\
    diff = cast value_type (sum_Z (zip_with Z.sub ends begins)) /\
    diff = sub value_type reduction_ends reduction_begins /\
    (in_range value_type (sum_Z (zip_with Z.sub ends begins)) ->
     diff = sum_Z (zip_with Z.sub ends begins)) /\
    (in_range value_type (reduction_ends - reduction_begins) ->
     diff = reduction_ends - reduction_begins).
Proof.
  intros Hb He Hrange.
  exists (cast value_type (sum_Z (zip_with Z.sub ends begins))),
         (sum_in value_type (take (Z.to_nat N) ends)),
         (sum_in value_type (take (Z.to_nat N) begins)).
  assert (cast value_type (sum_Z (zip_with Z.sub ends begins)) =
          sub value_type (sum_in value_type (take (Z.to_nat N) ends))
                         (sum_in value_type (take (Z.to_nat N) begins)))
    as Hsub.
  { rewrite !take_ge by lia. unfold sub.
    rewrite !sum_in_cast, cast_sub_l, cast_sub_r.
    f_equal. apply sum_Z_zip_sub. lia. }
  split; [|split; [|split; [|split; [|split; [|split]]]]].
  - rewrite kk_reduce_diff_view_eq by assumption. reflexivity.
  - rewrite kk_reduce_view_eq by (assumption || lia). reflexivity.
  - rewrite kk_reduce_view_eq by (assumption || lia). reflexivity.
  - reflexivity.
  - exact Hsub.
  - apply cast_id.
  - intros Hexact. rewrite Hsub. apply cast_id, Hexact.
Qed.

Lemma diff_reduction_correct_witness :
  exists diff reduction_ends reduction_begins : Z,
    result (kk_reduce_diff_view int32_t 3 [0; 2; 5] [2; 5; 9]) = Some diff /\
    result (kk_reduce_view int32_t 3 [2; 5; 9]) = Some reduction_ends /\
    result (kk_reduce_view int32_t 3 [0; 2; 5]) = Some reduction_begins /\
    diff = cast int32_t (sum_Z (zip_with Z.sub [2; 5; 9] [0; 2; 5])) /\
    diff = sub int32_t reduction_ends reduction_begins /\
    (in_range int32_t (sum_Z (zip_with Z.sub [2; 5; 9] [0; 2; 5])) ->
     diff = sum_Z (zip_with Z.sub [2; 5; 9] [0; 2; 5])) /\
    (in_range int32_t (reduction_ends - reduction_begins) ->
     diff = reduction_ends - reduction_begins).
Proof.
  apply (diff_reduction_correct int32_t [0; 2; 5] [2; 5; 9] 3).
  - reflexivity.
  - reflexivity.
  - in_range_by_evaluation.
Defined.

(** ** The tolerance equality check *)

Section IsIdenticalFacts.

Variable val_type : int_type.
Variable KAT_abs : Z -> Z.

Lemma IsIdenticalFunctor_reads (view1 view2 : list Z) (eps : Z) (i : nat)
    (is_equal : Z) :
  IsIdenticalFunctor val_type KAT_abs view1 view2 eps i is_equal =
  count_step val_type KAT_abs eps is_equal <$> zip view1 view2 !! i.
Proof.
  unfold IsIdenticalFunctor. rewrite lookup_zip_with.
  destruct (view1 !! i), (view2 !! i); reflexivity.
Qed.

Lemma length_filter_le {A} (f : A -> bool) (l : list A) :
  (length (List.filter f l) <= length l)%nat.
Proof.
  induction l as [|x l IH]; simpl; [lia|]. destruct (f x); simpl; lia.
Qed.

(** The counter cannot wrap around while the views have fewer than [2^64]
    entries. *)
Lemma foldl_count_step (eps : Z) (l : list (Z * Z)) (is_equal : Z) :
  0 <= is_equal -> is_equal + Z.of_nat (length l) < 2 ^ 64 ->
  foldl (count_step val_type KAT_abs eps) is_equal l =
  is_equal + Z.of_nat (length (List.filter (exceeds val_type KAT_abs eps) l)).
Proof.
  revert is_equal.
  induction l as [|p l IH]; intros is_equal Hpos Hbound; simpl in *; [lia|].
  pose proof (length_filter_le (exceeds val_type KAT_abs eps) l) as Hle.
  unfold count_step at 2.
  destruct (exceeds val_type KAT_abs eps p); simpl.
  - rewrite cast_id by (apply size_t_range; lia). rewrite IH by lia. lia.
  - apply IH; lia.
Qed.

Lemma parallel_reduce_IsIdenticalFunctor (view1 view2 : list Z) (eps : Z) :
  length view1 = length view2 -> Z.of_nat (length view1) < 2 ^ 64 ->
  parallel_reduce (my_exec_space 0 (Z.of_nat (length view1)))
    (IsIdenticalFunctor val_type KAT_abs view1 view2 eps) =
  Some (Z.of_nat (mismatch_count val_type KAT_abs view1 view2 eps),
        FunctorCall <$> seq 0 (length view1)).
Proof.
  intros Hlen Hbound.
  rewrite (parallel_reduce_fold (count_step val_type KAT_abs eps)
             (zip view1 view2)).
  - rewrite Nat2Z.id, take_ge by (rewrite length_zip_with; lia).
    rewrite foldl_count_step by (rewrite ?length_zip_with; lia).
    reflexivity.
  - apply IsIdenticalFunctor_reads.
  - rewrite length_zip_with. lia.
Qed.

Lemma kk_is_identical_view_differing_lengths (view1 view2 : list Z)
    (eps : Z) :
  length view1 <> length view2 ->
  kk_is_identical_view val_type KAT_abs view1 view2 eps = Some (false, []).
Proof.
  intros Hlen. unfold kk_is_identical_view.
  destruct (Nat.eqb_spec (length view1) (length view2)) as [Heq|_];
    [contradiction|reflexivity].
Qed.

Lemma kk_is_identical_view_equal_lengths (view1 view2 : list Z) (eps : Z) :
  length view1 = length view2 -> Z.of_nat (length view1) < 2 ^ 64 ->
  kk_is_identical_view val_type KAT_abs view1 view2 eps =
  Some (Nat.eqb (mismatch_count val_type KAT_abs view1 view2 eps) 0,
        (FunctorCall <$> seq 0 (length view1)) ++ [FenceReached]).
Proof.
  intros Hlen Hbound. unfold kk_is_identical_view.
  rewrite (proj2 (Nat.eqb_eq _ _) Hlen). simpl.
  rewrite parallel_reduce_IsIdenticalFunctor by assumption. simpl.
  destruct (mismatch_count val_type KAT_abs view1 view2 eps) as [|m];
    reflexivity.
Qed.

Lemma mismatch_count_zero (view1 view2 : list Z) (eps : Z) :
  mismatch_count val_type KAT_abs view1 view2 eps = 0%nat <->
  forall (i : nat) (x1 x2 : Z),
    view1 !! i = Some x1 -> view2 !! i = Some x2 ->
    val_diff val_type KAT_abs (x1, x2) <= eps.
Proof.
  unfold mismatch_count. revert view2.
  induction view1 as [|y1 view1 IH]; intros [|y2 view2]; simpl;
    try (split; [intros _ i x1 x2; rewrite ?lookup_nil; discriminate
                | reflexivity]).
  unfold exceeds at 1.
  destruct (Z.ltb_spec eps (val_diff val_type KAT_abs (y1, y2)))
    as [Hlt|Hle]; simpl.
  - split; [discriminate|]. intros Hall.
    specialize (Hall 0%nat y1 y2 eq_refl eq_refl). lia.
  - rewrite IH. split.
    + intros Hall [|i] x1 x2; simpl.
      * intros [= <-] [= <-]. exact Hle.
      * apply Hall.
    + intros Hall i x1 x2. apply (Hall (S i)).
Qed.

Lemma mismatch_count_antitone (view1 view2 : list Z) (eps0 eps1 : Z) :
  eps0 <= eps1 ->
  (mismatch_count val_type KAT_abs view1 view2 eps1
   <= mismatch_count val_type KAT_abs view1 view2 eps0)%nat.
Proof.
  intros Heps. unfold mismatch_count.
  induction (zip view1 view2) as [|p l IH]; simpl; [lia|].
  destruct (exceeds val_type KAT_abs eps1 p) eqn:H1,
           (exceeds val_type KAT_abs eps0 p) eqn:H0; simpl; try lia.
  unfold exceeds in H1, H0. lia.
Qed.

End IsIdenticalFacts.

(** C6.  For views of fewer than [2^64] entries and every tolerance [eps],
    the equality check returns true if and only if the views have equal
    length and, at every index [i], the magnitude of
    [view1[i] - view2[i]] is at most [eps]. *)
Theorem is_identical_iff_within_tolerance (val_type : int_type)
    (KAT_abs : Z -> Z) (view1 view2 : list Z) (eps : Z) :
  Z.of_nat (length view1) < 2 ^ 64 ->
  exists b : bool,
    result (kk_is_identical_view val_type KAT_abs view1 view2 eps) = Some b /\
    (b = true <->
     length view1 = length view2 /\
     forall (i : nat) (x1 x2 : Z),
       view1 !! i = Some x1 -> view2 !! i = Some x2 ->
       KAT_abs (cast val_type (x1 - x2)) <= eps).
Proof.
  intros Hbound. destruct (decide (length view1 = length view2)) as [Hlen|Hlen].
  - exists (Nat.eqb (mismatch_count val_type KAT_abs view1 view2 eps) 0). split.
    + rewrite kk_is_identical_view_equal_lengths by assumption. reflexivity.
    + rewrite Nat.eqb_eq, mismatch_count_zero. tauto.
  - exists false. split.
    + rewrite kk_is_identical_view_differing_lengths by assumption. reflexivity.
    + split; [discriminate | tauto].
Qed.

Lemma is_identical_iff_within_tolerance_witness :
  exists b : bool,
    result (kk_is_identical_view int32_t (ArithTraits_abs int32_t)
              [1; 2; 3] [1; 4; 3] 2) = Some b /\
    (b = true <->
     length [1; 2; 3] = length [1; 4; 3] /\
     forall (i : nat) (x1 x2 : Z),
       [1; 2; 3] !! i = Some x1 -> [1; 4; 3] !! i = Some x2 ->
       ArithTraits_abs int32_t (cast int32_t (x1 - x2)) <= 2).
Proof.
  apply (is_identical_iff_within_tolerance int32_t (ArithTraits_abs int32_t)
           [1; 2; 3] [1; 4; 3] 2).
  simpl. lia.
Defined.

(** C7.  When the two views have different lengths the equality check
    returns false for every tolerance, and the engine records nothing: no
    invocation of the functor and no fence. *)
Theorem differing_lengths_false_without_work (val_type : int_type)
    (KAT_abs : Z -> Z) (view1 view2 : list Z) (eps : Z) :
  length view1 <> length view2 ->
  result (kk_is_identical_view val_type KAT_abs view1 view2 eps) = Some false /\
  events (kk_is_identical_view val_type KAT_abs view1 view2 eps) = Some [].
Proof.
  intros Hlen.
  rewrite kk_is_identical_view_differing_lengths by exact Hlen.
  split; reflexivity.
Qed.

Lemma differing_lengths_false_without_work_witness :
  result (kk_is_identical_view int32_t (ArithTraits_abs int32_t)
            [1; 2; 3] [1; 2; 3; 4] 1000) = Some false /\
  events (kk_is_identical_view int32_t (ArithTraits_abs int32_t)
            [1; 2; 3] [1; 2; 3; 4] 1000) = Some [].
Proof.
  apply (differing_lengths_false_without_work int32_t (ArithTraits_abs int32_t)
           [1; 2; 3] [1; 2; 3; 4] 1000).
  simpl. lia.
Defined.

(** C8.  The equality check is monotonic in the tolerance: if it returns
    true for [eps0] it returns true for every [eps1 >= eps0]. *)
Theorem is_identical_monotone (val_type : int_type) (KAT_abs : Z -> Z)
    (v1 v2 : list Z) (eps0 eps1 : Z) :
  Z.of_nat (length v1) < 2 ^ 64 ->
  eps0 <= eps1 ->
  result (kk_is_identical_view val_type KAT_abs v1 v2 eps0) = Some true ->
  result (kk_is_identical_view val_type KAT_abs v1 v2 eps1) = Some true.
Proof.
  intros Hbound Heps Htrue.
  destruct (decide (length v1 = length v2)) as [Hlen|Hlen].
  - rewrite kk_is_identical_view_equal_lengths in Htrue |- * by assumption.
    simpl in *. injection Htrue as Hzero. apply Nat.eqb_eq in Hzero.
    pose proof (mismatch_count_antitone val_type KAT_abs v1 v2 eps0 eps1 Heps)
      as Hle.
    f_equal. apply Nat.eqb_eq. lia.
  - rewrite kk_is_identical_view_differing_lengths in Htrue by assumption.
    discriminate Htrue.
Qed.

Lemma is_identical_monotone_witness :
  result (kk_is_identical_view int32_t (ArithTraits_abs int32_t)
            [1; 2; 3] [1; 4; 3] 5) = Some true.
Proof.
  apply (is_identical_monotone int32_t (ArithTraits_abs int32_t)
           [1; 2; 3] [1; 4; 3] 2 5).
  - simpl. lia.
  - lia.
  - reflexivity.
Defined.

(** C9.  For views of equal length and every tolerance [eps], the counter
    the reduction of the equality check leaves in [issame] is the number of
    index positions at which the magnitude of the difference of the entries
    exceeds [eps]. *)
Theorem mismatch_counter_counts (val_type : int_type) (KAT_abs : Z -> Z)
    (view1 view2 : list Z) (eps : Z) :
  length view1 = length view2 ->
  Z.of_nat (length view1) < 2 ^ 64 ->
  result (parallel_reduce (my_exec_space 0 (Z.of_nat (length view1)))
            (IsIdenticalFunctor val_type KAT_abs view1 view2 eps)) =
  Some (Z.of_nat (mismatch_count val_type KAT_abs view1 view2 eps)).
Proof.
  intros Hlen Hbound.
  rewrite parallel_reduce_IsIdenticalFunctor by assumption. reflexivity.
Qed.

Lemma mismatch_counter_counts_witness :
  result (parallel_reduce (my_exec_space 0 (Z.of_nat (length [1; 9; 3; 0])))
            (IsIdenticalFunctor int32_t (ArithTraits_abs int32_t)
               [1; 9; 3; 0] [1; 4; 3; 7] 2)) =
  Some (Z.of_nat (mismatch_count int32_t (ArithTraits_abs int32_t)
                    [1; 9; 3; 0] [1; 4; 3; 7] 2)).
Proof.
  apply (mismatch_counter_counts int32_t (ArithTraits_abs int32_t)
           [1; 9; 3; 0] [1; 4; 3; 7] 2).
  - reflexivity.
  - simpl. lia.
Defined.

(** ** The two-phase scan agrees with the sequential one *)


Section TwoPhase.

Variable idx : int_type.
Variable out : Z -> Z -> Z.





End TwoPhase.



(** ** Views shorter than the count, and the scenarios of the specification *)

(** A count larger than the extent of the view makes the scan read past its
    end: the model has no result for it. *)
Lemma parallel_scan_past_the_end (idx : int_type) (out : Z -> Z -> Z)
    (arr : list Z) (n : Z) :
  Z.of_nat (length arr) < n ->
  parallel_scan (my_exec_space 0 n) (prefix_step idx out) arr = None.
Proof.
  intros Hn. unfold parallel_scan, first_index, work_count. simpl.
  rewrite scan_loop_pass, pass_out_of_range; [reflexivity| |]; simpl; lia.
Qed.

Lemma KOKKOSKERNELS_MACRO_MIN_min (x y : Z) :
  KOKKOSKERNELS_MACRO_MIN x y = Z.min x y.
Proof. unfold KOKKOSKERNELS_MACRO_MIN. destruct (Z.ltb_spec x y); lia. Qed.

(** On a signed type the magnitude is the absolute value, except at the
    least value of the type, whose negation does not fit. *)
Lemma ArithTraits_abs_signed (t : int_type) (x : Z) :
  is_signed t = true -> in_range t x -> x <> min_value t ->
  ArithTraits_abs t x = Z.abs x.
Proof.
  intros Hsigned [Hmin Hmax] Hne. unfold ArithTraits_abs. rewrite Hsigned.
  destruct (Z.leb_spec 0 x) as [Hpos|Hneg]; [lia|].
  rewrite cast_id; [lia|].
  revert Hmin Hmax Hne. unfold in_range, min_value, max_value.
  rewrite Hsigned. lia.
Qed.

Example scenario_1_exclusive :
  result (kk_exclusive_parallel_prefix_sum int32_t 4 [1; 2; 3; 4])
  = Some [0; 1; 3; 6].
Proof. reflexivity. Qed.

Example scenario_1_inclusive :
  result (kk_inclusive_parallel_prefix_sum int32_t 4 [1; 2; 3; 4])
  = Some [1; 3; 6; 10].
Proof. reflexivity. Qed.

Example scenario_1_reduction :
  result (kk_reduce_view int32_t 4 [1; 2; 3; 4]) = Some 10.
Proof. reflexivity. Qed.

Example scenario_2_diff_reduce :
  result (kk_reduce_diff_view int32_t 3 [0; 2; 5] [2; 5; 9]) = Some 9.
Proof. reflexivity. Qed.

Example scenario_4_lengths_differ :
  kk_is_identical_view int32_t (ArithTraits_abs int32_t)
    [1; 2; 3] [1; 2; 3; 4] 7 = Some (false, []).
Proof. reflexivity. Qed.

(** With equal lengths the functor is invoked once per index and the fence
    is reached before the counter is read. *)
Example equal_lengths_work_and_fence :
  kk_is_identical_view int32_t (ArithTraits_abs int32_t)
    [1; 2; 3] [1; 4; 3] 1
  = Some (false,
          [FunctorCall 0; FunctorCall 1; FunctorCall 2; FenceReached]).
Proof. reflexivity. Qed.

(** A two-phase scan over three workers. *)
Example two_phase_three_chunks :
  two_phase_scan (ExclusiveParallelPrefixSum int32_t) (add size_t)
    [2%nat; 1%nat; 3%nat] [1; 2; 3; 4; 5; 6]
  = Some ([0; 1; 3; 6; 10; 15], 21).
Proof. reflexivity. Qed.

(** ** Further properties of the scans *)





(** X3.  An element count above the extent of the view makes either scan read
    the view past its end: it has no result. *)
Theorem scans_past_the_end (idx : int_type) (arr : list Z) (n : Z) :
  in_range idx n -> Z.of_nat (length arr) < n ->
  kk_exclusive_parallel_prefix_sum idx n arr = None /\
  kk_inclusive_parallel_prefix_sum idx n arr = None.
Proof.
  intros Hrange Hn.
  unfold kk_exclusive_parallel_prefix_sum, kk_inclusive_parallel_prefix_sum.
  rewrite (cast_id idx n Hrange).
  rewrite ExclusiveParallelPrefixSum_shape, InclusiveParallelPrefixSum_shape.
  rewrite !parallel_scan_past_the_end by exact Hn. split; reflexivity.
Qed.

Lemma scans_past_the_end_witness :
  kk_exclusive_parallel_prefix_sum int32_t 4 [1; 2; 3] = None /\
  kk_inclusive_parallel_prefix_sum int32_t 4 [1; 2; 3] = None.
Proof.
  apply (scans_past_the_end int32_t [1; 2; 3] 4).
  - in_range_by_evaluation.
  - simpl. lia.
Defined.

Lemma reduce_loop_past_the_end {E} (g : Z -> E -> Z) (elems : list E)
    (f : reduce_functor) (count ii : nat) (update : Z) :
  (forall (ii : nat) (update : Z), f ii update = g update <$> elems !! ii) ->
  (length elems < ii + count)%nat -> (ii <= length elems)%nat ->
  reduce_loop f ii count update = None.
Proof.
  intros Hreads. revert ii update.
  induction count as [|count IH]; intros ii update Hlt Hle; [lia|].
  simpl. rewrite Hreads. destruct (elems !! ii) as [x|] eqn:Hx; simpl.
  - apply lookup_lt_Some in Hx. rewrite IH by lia. reflexivity.
  - reflexivity.
Qed.

(** X4.  A reduction over more indices than a view it reads has entries reads
    that view past its end: [kk_reduce_view] has no result when the count
    exceeds the extent of the view, [kk_reduce_diff_view] when it exceeds
    the extent of either view. *)
Theorem reductions_past_the_end (value_type : int_type)
    (arr begins ends : list Z) (n : Z) :
  in_range size_t n ->
  Z.of_nat (length arr) < n ->
  Z.of_nat (length begins) < n \/ Z.of_nat (length ends) < n ->
  kk_reduce_view value_type n arr = None /\
  kk_reduce_diff_view value_type n begins ends = None.
Proof.
  intros Hrange Harr Hviews. unfold kk_reduce_view, kk_reduce_diff_view.
  rewrite (cast_id size_t n Hrange).
  unfold parallel_reduce, first_index, work_count. simpl.
  rewrite Z.sub_0_r. change (Z.to_nat 0) with 0%nat. split.
  - apply (reduce_loop_past_the_end (add value_type) arr);
      [apply ReductionFunctor_reads | lia | lia].
  - apply (reduce_loop_past_the_end (diff_step value_type) (zip begins ends));
      [apply DiffReductionFunctor_reads | rewrite length_zip_with; lia | lia].
Qed.

Lemma reductions_past_the_end_witness :
  kk_reduce_view int32_t 4 [1; 2; 3] = None /\
  kk_reduce_diff_view int32_t 4 [0; 2; 5; 9] [2; 5; 9] = None.
Proof.
  apply (reductions_past_the_end int32_t [1; 2; 3] [0; 2; 5; 9] [2; 5; 9] 4).
  - in_range_by_evaluation.
  - simpl. lia.
  - right. simpl. lia.
Defined.

(** X5.  The entry the inclusive scan leaves at [i] is the entry the exclusive
    scan leaves at [i + 1]. *)
Theorem inclusive_is_exclusive_shifted (idx : int_type) (A : list Z) (N : Z)
    (i : nat) :
  N = Z.of_nat (length A) -> in_range idx N -> (S i < length A)%nat ->
  exists (inclusive exclusive : list Z) (v : Z),
    result (kk_inclusive_parallel_prefix_sum idx N A) = Some inclusive /\
    result (kk_exclusive_parallel_prefix_sum idx N A) = Some exclusive /\
    inclusive !! i = Some v /\ exclusive !! S i = Some v.
Proof.
  intros HN Hrange Hi.
  destruct (lookup_lt_is_Some_2 A i) as [a Ha]; [lia|].
  destruct (lookup_lt_is_Some_2 A (S i) Hi) as [a' Ha'].
  exists (after_scan idx (fun _ after => after) (Z.to_nat N) A),
         (after_scan idx (fun before _ => before) (Z.to_nat N) A),
         (sum_in idx (take (S i) A)).
  split; [|split; [|split]].
  - rewrite kk_inclusive_parallel_prefix_sum_eq by (auto; lia). reflexivity.
  - rewrite kk_exclusive_parallel_prefix_sum_eq by (auto; lia). reflexivity.
  - apply (lookup_inclusive idx _ i A a); [lia | exact Ha].
  - apply (lookup_exclusive idx _ (S i) A a'); [lia | exact Ha'].
Qed.

Lemma inclusive_is_exclusive_shifted_witness :
  exists (inclusive exclusive : list Z) (v : Z),
    result (kk_inclusive_parallel_prefix_sum uint8_t 3 [200; 100; 7])
      = Some inclusive /\
    result (kk_exclusive_parallel_prefix_sum uint8_t 3 [200; 100; 7])
      = Some exclusive /\
    inclusive !! 1%nat = Some v /\ exclusive !! 2%nat = Some v.
Proof.
  apply (inclusive_is_exclusive_shifted uint8_t [200; 100; 7] 3 1).
  - reflexivity.
  - in_range_by_evaluation.
  - simpl. lia.
Defined.

(** Subtracting in the type recovers an in-range value that was added. *)
Lemma sub_add_cancel (t : int_type) (s a : Z) :
  in_range t a -> sub t (add t s a) s = a.
Proof.
  intros Ha. unfold sub, add. rewrite cast_sub_l.
  replace (s + a - s) with a by lia. apply cast_id, Ha.
Qed.

(** X6.  The scans lose nothing of an array of [idx] values: the entry [A[i]] is
    the inclusive entry at [i] minus the exclusive entry at [i], and also
    the difference of the exclusive entries at [i + 1] and [i], in the
    arithmetic of [idx] and even where the sums have wrapped around. *)
Theorem scan_differences_recover_input (idx : int_type) (A : list Z) (N : Z) :
  N = Z.of_nat (length A) -> in_range idx N -> Forall (in_range idx) A ->
  exists inclusive exclusive : list Z,
    result (kk_inclusive_parallel_prefix_sum idx N A) = Some inclusive /\
    result (kk_exclusive_parallel_prefix_sum idx N A) = Some exclusive /\
    forall (i : nat) (a : Z), A !! i = Some a ->
      exists e : Z,
        exclusive !! i = Some e /\
        (exists v : Z, inclusive !! i = Some v /\ sub idx v e = a) /\
        ((S i < length A)%nat ->
         exists e' : Z, exclusive !! S i = Some e' /\ sub idx e' e = a).
Proof.
  intros HN Hrange Hall.
  exists (after_scan idx (fun _ after => after) (Z.to_nat N) A),
         (after_scan idx (fun before _ => before) (Z.to_nat N) A).
  split; [|split].
  - rewrite kk_inclusive_parallel_prefix_sum_eq by (auto; lia). reflexivity.
  - rewrite kk_exclusive_parallel_prefix_sum_eq by (auto; lia). reflexivity.
  - intros i a Ha. pose proof (lookup_lt_Some _ _ _ Ha) as Hi.
    assert (in_range idx a) as Hin
      by (eapply Forall_lookup_1; [exact Hall | exact Ha]).
    exists (sum_in idx (take i A)). split; [|split].
    + apply (lookup_exclusive idx _ i A a); [lia | exact Ha].
    + exists (sum_in idx (take (S i) A)). split.
      * apply (lookup_inclusive idx _ i A a); [lia | exact Ha].
      * rewrite (sum_in_take_S idx A i a Ha). apply sub_add_cancel, Hin.
    + intros HS. destruct (lookup_lt_is_Some_2 A (S i) HS) as [a' Ha'].
      exists (sum_in idx (take (S i) A)). split.
      * apply (lookup_exclusive idx _ (S i) A a'); [lia | exact Ha'].
      * rewrite (sum_in_take_S idx A i a Ha). apply sub_add_cancel, Hin.
Qed.

Lemma scan_differences_recover_input_witness :
  exists inclusive exclusive : list Z,
    result (kk_inclusive_parallel_prefix_sum uint8_t 3 [200; 100; 7])
      = Some inclusive /\
    result (kk_exclusive_parallel_prefix_sum uint8_t 3 [200; 100; 7])
      = Some exclusive /\
    forall (i : nat) (a : Z), [200; 100; 7] !! i = Some a ->
      exists e : Z,
        exclusive !! i = Some e /\
        (exists v : Z, inclusive !! i = Some v /\ sub uint8_t v e = a) /\
        ((S i < length [200; 100; 7])%nat ->
         exists e' : Z, exclusive !! S i = Some e' /\ sub uint8_t e' e = a).
Proof.
  apply (scan_differences_recover_input uint8_t [200; 100; 7] 3).
  - reflexivity.
  - in_range_by_evaluation.
  - repeat constructor; in_range_by_evaluation.
Defined.

(** ** How the scans and the reductions compose *)

Lemma cast_congruent (t : int_type) (x y k : Z) :
  x = y + k * modulus t -> cast t x = cast t y.
Proof. intros ->. apply cast_shift. Qed.

(** The differences between what the inclusive and the exclusive functor
    store over the same elements add up to the sum of the elements. *)
Lemma sum_scanned_differences (idx : int_type) (l : list Z) (update acc : Z) :
  cast idx (acc + sum_Z (zip_with Z.sub
                           (scanned idx (fun _ after => after) update l)
                           (scanned idx (fun before _ => before) update l)))
  = cast idx (acc + sum_Z l).
Proof.
  revert update acc. induction l as [|x l IH]; intros update acc; simpl.
  - reflexivity.
  - rewrite cast_via_size_t.
    destruct (cast_eq_shift idx (update + x)) as [k1 Hk1].
    destruct (cast_eq_shift idx update) as [k2 Hk2].
    rewrite Z.add_assoc, IH, Hk1, Hk2.
    apply (cast_congruent idx _ _ (k1 - k2)). lia.
Qed.

(** X7.  Reducing the differences between the inclusive and the exclusive scan
    of [A] with [kk_reduce_diff_view] gives the reduction of [A]. *)
Theorem diff_of_scans_is_reduction (idx : int_type) (A : list Z) (N : Z) :
  N = Z.of_nat (length A) -> in_range idx N ->
  exists (inclusive exclusive : list Z) (total : Z),
    result (kk_inclusive_parallel_prefix_sum idx N A) = Some inclusive /\
    result (kk_exclusive_parallel_prefix_sum idx N A) = Some exclusive /\
    result (kk_reduce_diff_view idx N exclusive inclusive) = Some total /\
    result (kk_reduce_view idx N A) = Some total.
Proof.
  intros HN Hrange.
  assert (in_range size_t N) as Hsize
    by (apply (in_range_size_t idx); [lia | exact Hrange]).
  exists (after_scan idx (fun _ after => after) (Z.to_nat N) A),
         (after_scan idx (fun before _ => before) (Z.to_nat N) A),
         (sum_in idx (take (Z.to_nat N) A)).
  split; [|split; [|split]].
  - rewrite kk_inclusive_parallel_prefix_sum_eq by (auto; lia). reflexivity.
  - rewrite kk_exclusive_parallel_prefix_sum_eq by (auto; lia). reflexivity.
  - rewrite kk_reduce_diff_view_eq
      by (rewrite ?length_after_scan; assumption). simpl. f_equal.
    unfold after_scan. rewrite !take_ge, !drop_ge, !app_nil_r by lia.
    rewrite sum_in_cast.
    apply (sum_scanned_differences idx A 0 0).
  - rewrite kk_reduce_view_eq by (assumption || lia). reflexivity.
Qed.

Lemma diff_of_scans_is_reduction_witness :
  exists (inclusive exclusive : list Z) (total : Z),
    result (kk_inclusive_parallel_prefix_sum uint8_t 3 [200; 100; 7])
      = Some inclusive /\
    result (kk_exclusive_parallel_prefix_sum uint8_t 3 [200; 100; 7])
      = Some exclusive /\
    result (kk_reduce_diff_view uint8_t 3 exclusive inclusive) = Some total /\
    result (kk_reduce_view uint8_t 3 [200; 100; 7]) = Some total.
Proof.
  apply (diff_of_scans_is_reduction uint8_t [200; 100; 7] 3).
  - reflexivity.
  - in_range_by_evaluation.
Defined.

(** X8.  The accumulator either scan ends with, converted to the value type, is
    the sum reduction of the scanned entries. *)
Theorem final_accumulator_is_reduction (idx : int_type) (A : list Z) (n : Z) :
  in_range size_t n -> n <= Z.of_nat (length A) ->
  exists (exclusive inclusive : list Z) (update : Z),
    result (parallel_scan (my_exec_space 0 n)
              (ExclusiveParallelPrefixSum idx) A) = Some (exclusive, update) /\
    result (parallel_scan (my_exec_space 0 n)
              (InclusiveParallelPrefixSum idx) A) = Some (inclusive, update) /\
    result (kk_reduce_view idx n A) = Some (cast idx update).
Proof.
  intros Hrange Hn. pose proof (proj1 (size_t_range n) Hrange) as Hpos.
  exists (after_scan idx (fun before _ => before) (Z.to_nat n) A),
         (after_scan idx (fun _ after => after) (Z.to_nat n) A),
         (cast size_t (sum_Z (take (Z.to_nat n) A))).
  split; [|split].
  - apply parallel_scan_exclusive. lia.
  - apply parallel_scan_inclusive. lia.
  - rewrite kk_reduce_view_eq by assumption. simpl.
    rewrite cast_via_size_t, sum_in_cast. reflexivity.
Qed.

Lemma final_accumulator_is_reduction_witness :
  exists (exclusive inclusive : list Z) (update : Z),
    result (parallel_scan (my_exec_space 0 2)
              (ExclusiveParallelPrefixSum uint8_t) [200; 100; 7])
      = Some (exclusive, update) /\
    result (parallel_scan (my_exec_space 0 2)
              (InclusiveParallelPrefixSum uint8_t) [200; 100; 7])
      = Some (inclusive, update) /\
    result (kk_reduce_view uint8_t 2 [200; 100; 7])
      = Some (cast uint8_t update).
Proof.
  apply (final_accumulator_is_reduction uint8_t [200; 100; 7] 2).
  - in_range_by_evaluation.
  - simpl. lia.
Defined.

(** X9.  The reduction of a concatenation is the sum, in the value type, of the
    reductions of its parts: partial results can be merged in any
    grouping. *)
Theorem reduction_of_concatenation (value_type : int_type) (A B : list Z) :
  in_range size_t (Z.of_nat (length A + length B)) ->
  exists total_A total_B : Z,
    result (kk_reduce_view value_type (Z.of_nat (length A)) A)
      = Some total_A /\
    result (kk_reduce_view value_type (Z.of_nat (length B)) B)
      = Some total_B /\
    result (kk_reduce_view value_type (Z.of_nat (length A + length B))
              (A ++ B))
      = Some (add value_type total_A total_B).
Proof.
  intros Hrange. pose proof (proj1 (size_t_range _) Hrange) as Hbound.
  exists (sum_in value_type A), (sum_in value_type B).
  split; [|split].
  - rewrite kk_reduce_view_eq by (try apply size_t_range; lia).
    rewrite Nat2Z.id, take_ge by lia. reflexivity.
  - rewrite kk_reduce_view_eq by (try apply size_t_range; lia).
    rewrite Nat2Z.id, take_ge by lia. reflexivity.
  - rewrite kk_reduce_view_eq by (rewrite ?length_app; assumption || lia).
    rewrite Nat2Z.id, take_ge by (rewrite length_app; lia). simpl. f_equal.
    unfold add. rewrite !sum_in_cast, sum_Z_app, cast_add_l, cast_add_r.
    reflexivity.
Qed.

Lemma reduction_of_concatenation_witness :
  exists total_A total_B : Z,
    result (kk_reduce_view int8_t (Z.of_nat (length [100; 100])) [100; 100])
      = Some total_A /\
    result (kk_reduce_view int8_t (Z.of_nat (length [-7; 9; 5])) [-7; 9; 5])
      = Some total_B /\
    result (kk_reduce_view int8_t
              (Z.of_nat (length [100; 100] + length [-7; 9; 5]))
              ([100; 100] ++ [-7; 9; 5]))
      = Some (add int8_t total_A total_B).
Proof.
  apply (reduction_of_concatenation int8_t [100; 100] [-7; 9; 5]).
  in_range_by_evaluation.
Defined.

(** ** Ranges, order and the typed element count *)

Lemma Forall_in_range_scanned (idx : int_type) (out : Z -> Z -> Z)
    (l : list Z) (update : Z) :
  Forall (in_range idx) (scanned idx out update l).
Proof.
  revert update. induction l as [|x l IH]; intros update; simpl;
    constructor; [apply cast_in_range | apply IH].
Qed.

(** X10.  Every entry a scan stores is a value of the view's value type,
    whatever the view held before; if the entries beyond the count were
    values of the type, the whole view holds values of the type
    afterwards. *)
Theorem scans_store_values_of_the_type (idx : int_type) (A : list Z) (n : Z) :
  0 <= n <= Z.of_nat (length A) -> in_range idx n ->
  exists exclusive inclusive : list Z,
    result (kk_exclusive_parallel_prefix_sum idx n A) = Some exclusive /\
    result (kk_inclusive_parallel_prefix_sum idx n A) = Some inclusive /\
    Forall (in_range idx) (take (Z.to_nat n) exclusive) /\
    Forall (in_range idx) (take (Z.to_nat n) inclusive) /\
    (Forall (in_range idx) (drop (Z.to_nat n) A) ->
     Forall (in_range idx) exclusive /\ Forall (in_range idx) inclusive).
Proof.
  intros Hn Hrange.
  exists (after_scan idx (fun before _ => before) (Z.to_nat n) A),
         (after_scan idx (fun _ after => after) (Z.to_nat n) A).
  assert (forall out, take (Z.to_nat n) (after_scan idx out (Z.to_nat n) A)
                      = scanned idx out 0 (take (Z.to_nat n) A)) as Htake.
  { intros out. unfold after_scan. rewrite take_app_length'; [reflexivity|].
    rewrite length_scanned, length_take. lia. }
  split; [|split; [|split; [|split]]].
  - rewrite kk_exclusive_parallel_prefix_sum_eq by auto. reflexivity.
  - rewrite kk_inclusive_parallel_prefix_sum_eq by auto. reflexivity.
  - rewrite Htake. apply Forall_in_range_scanned.
  - rewrite Htake. apply Forall_in_range_scanned.
  - intros Hrest. unfold after_scan.
    split; apply Forall_app;
      (split; [apply Forall_in_range_scanned | exact Hrest]).
Qed.

Lemma scans_store_values_of_the_type_witness :
  exists exclusive inclusive : list Z,
    result (kk_exclusive_parallel_prefix_sum uint8_t 2 [200; 100; 7])
      = Some exclusive /\
    result (kk_inclusive_parallel_prefix_sum uint8_t 2 [200; 100; 7])
      = Some inclusive /\
    Forall (in_range uint8_t) (take (Z.to_nat 2) exclusive) /\
    Forall (in_range uint8_t) (take (Z.to_nat 2) inclusive) /\
    (Forall (in_range uint8_t) (drop (Z.to_nat 2) [200; 100; 7]) ->
     Forall (in_range uint8_t) exclusive /\
     Forall (in_range uint8_t) inclusive).
Proof.
  apply (scans_store_values_of_the_type uint8_t [200; 100; 7] 2).
  - simpl. lia.
  - in_range_by_evaluation.
Defined.

Lemma sum_Z_nonneg (l : list Z) : Forall (fun x => 0 <= x) l -> 0 <= sum_Z l.
Proof. induction 1 as [|x l Hx _ IH]; simpl; lia. Qed.

Lemma sum_Z_take_le (l : list Z) (i j : nat) :
  Forall (fun x => 0 <= x) l -> (i <= j)%nat ->
  0 <= sum_Z (take i l) <= sum_Z (take j l) /\ sum_Z (take j l) <= sum_Z l.
Proof.
  intros Hall Hij.
  assert (take j l = take i l ++ drop i (take j l)) as Hsplit.
  { rewrite <- (take_drop i (take j l)) at 1. rewrite take_take.
    rewrite Nat.min_l by lia. reflexivity. }
  pose proof (sum_Z_nonneg (take i l) (Forall_take _ _ _ Hall)) as H1.
  pose proof (sum_Z_nonneg (drop i (take j l))
                (Forall_drop _ _ _ (Forall_take _ _ _ Hall))) as H2.
  pose proof (sum_Z_nonneg (drop j l) (Forall_drop _ _ _ Hall)) as H3.
  assert (sum_Z (take j l)
          = sum_Z (take i l) + sum_Z (drop i (take j l))) as E1
    by (rewrite Hsplit at 1; apply sum_Z_app).
  assert (sum_Z l = sum_Z (take j l) + sum_Z (drop j l)) as E2
    by (rewrite <- (take_drop j l) at 1; apply sum_Z_app).
  lia.
Qed.

(** X11.  For an array of non-negative entries whose total fits the value type,
    as the row counts of a sparse matrix are, the exclusive prefix sum is
    the array of their mathematical partial sums: it starts from 0, never
    decreases, and stays at or below the total. *)
Theorem exclusive_scan_of_counts_is_monotone (idx : int_type) (A : list Z)
    (N : Z) :
  N = Z.of_nat (length A) -> in_range idx N ->
  Forall (fun x => 0 <= x) A -> in_range idx (sum_Z A) ->
  exists exclusive : list Z,
    result (kk_exclusive_parallel_prefix_sum idx N A) = Some exclusive /\
    (forall i : nat, (i < length A)%nat ->
       exclusive !! i = Some (sum_Z (take i A))) /\
    (forall (i j : nat) (vi vj : Z), (i <= j)%nat ->
       exclusive !! i = Some vi -> exclusive !! j = Some vj ->
       0 <= vi <= vj /\ vj <= sum_Z A).
Proof.
  intros HN Hrange Hall Htotal.
  assert (forall i : nat, (i < length A)%nat ->
            after_scan idx (fun before _ => before) (Z.to_nat N) A !! i =
            Some (sum_Z (take i A))) as Hentry.
  { intros i Hi. destruct (lookup_lt_is_Some_2 A i Hi) as [x Hx].
    rewrite (lookup_exclusive idx _ i A x) by (lia || exact Hx).
    f_equal. apply sum_in_exact.
    pose proof (sum_Z_take_le A i i Hall (Nat.le_refl i)) as Hle.
    pose proof (in_range_zero idx) as Hzero.
    unfold in_range in *. lia. }
  exists (after_scan idx (fun before _ => before) (Z.to_nat N) A).
  split; [|split].
  - rewrite kk_exclusive_parallel_prefix_sum_eq by (auto; lia). reflexivity.
  - exact Hentry.
  - intros i j vi vj Hij Hi Hj.
    pose proof (lookup_lt_Some _ _ _ Hi) as Hilen.
    pose proof (lookup_lt_Some _ _ _ Hj) as Hjlen.
    rewrite length_after_scan in Hilen, Hjlen.
    rewrite Hentry in Hi, Hj by assumption.
    injection Hi as <-. injection Hj as <-.
    pose proof (sum_Z_take_le A i j Hall Hij). lia.
Qed.

Lemma exclusive_scan_of_counts_is_monotone_witness :
  exists exclusive : list Z,
    result (kk_exclusive_parallel_prefix_sum uint8_t 4 [2; 0; 3; 4])
      = Some exclusive /\
    (forall i : nat, (i < length [2; 0; 3; 4])%nat ->
       exclusive !! i = Some (sum_Z (take i [2; 0; 3; 4]))) /\
    (forall (i j : nat) (vi vj : Z), (i <= j)%nat ->
       exclusive !! i = Some vi -> exclusive !! j = Some vj ->
       0 <= vi <= vj /\ vj <= sum_Z [2; 0; 3; 4]).
Proof.
  apply (exclusive_scan_of_counts_is_monotone uint8_t [2; 0; 3; 4] 4).
  - reflexivity.
  - in_range_by_evaluation.
  - repeat constructor; lia.
  - in_range_by_evaluation.
Defined.

(** X12.  The element count of the scans has the value type of the view: two
    counts that differ by a multiple of [2^bits] of that type are the same
    count, and a count that is such a multiple scans nothing, however long
    the view is. *)
Theorem scan_count_is_converted (idx : int_type) (arr : list Z) (n k : Z) :
  kk_exclusive_parallel_prefix_sum idx (n + k * modulus idx) arr
    = kk_exclusive_parallel_prefix_sum idx n arr /\
  kk_inclusive_parallel_prefix_sum idx (n + k * modulus idx) arr
    = kk_inclusive_parallel_prefix_sum idx n arr /\
  kk_exclusive_parallel_prefix_sum idx (k * modulus idx) arr = Some (arr, []) /\
  kk_inclusive_parallel_prefix_sum idx (k * modulus idx) arr = Some (arr, []).
Proof.
  unfold kk_exclusive_parallel_prefix_sum, kk_inclusive_parallel_prefix_sum.
  rewrite cast_shift.
  replace (cast idx (k * modulus idx)) with 0.
  - repeat split.
  - symmetry. replace (k * modulus idx) with (0 + k * modulus idx) by lia.
    rewrite cast_shift. apply cast_id, in_range_zero.
Qed.

(** ** Further properties of the tolerance equality check *)

Lemma Forall_iff_under {A} (D Q R : A -> Prop) (l : list A) :
  Forall D l -> (forall p, D p -> (Q p <-> R p)) ->
  (Forall Q l <-> Forall R l).
Proof.
  intros HD Hiff. induction HD as [|p l Hp _ IH].
  - split; constructor.
  - rewrite !Forall_cons, IH, (Hiff p Hp). reflexivity.
Qed.

Lemma Forall_zip_components (P1 P2 : Z -> Prop) (v1 v2 : list Z) :
  Forall P1 v1 -> Forall P2 v2 ->
  Forall (fun p : Z * Z => P1 p.1 /\ P2 p.2) (zip v1 v2).
Proof.
  intros H1. revert v2. induction H1 as [|x1 v1 Hx1 _ IH]; intros v2 H2.
  - constructor.
  - destruct H2 as [|x2 v2 Hx2 H2]; simpl; constructor; auto.
Qed.

Lemma Forall_zip_eq (v1 v2 : list Z) :
  length v1 = length v2 ->
  (Forall (fun p : Z * Z => p.1 = p.2) (zip v1 v2) <-> v1 = v2).
Proof.
  revert v2. induction v1 as [|x1 v1 IH]; intros [|x2 v2] Hlen;
    simpl in *; try discriminate.
  - split; [reflexivity | constructor].
  - rewrite Forall_cons, IH by lia. simpl. split.
    + intros [-> ->]. reflexivity.
    + intros [= -> ->]. split; reflexivity.
Qed.

Section IsIdenticalMore.

Variable val_type : int_type.
Variable KAT_abs : Z -> Z.

Lemma mismatch_count_zero_Forall (view1 view2 : list Z) (eps : Z) :
  mismatch_count val_type KAT_abs view1 view2 eps = 0%nat <->
  Forall (fun p => val_diff val_type KAT_abs p <= eps) (zip view1 view2).
Proof.
  unfold mismatch_count. induction (zip view1 view2) as [|p l IH]; simpl.
  - split; [constructor | reflexivity].
  - rewrite Forall_cons, <- IH.
    destruct (exceeds val_type KAT_abs eps p) eqn:Hp; unfold exceeds in Hp;
      simpl;
      [split; [discriminate | lia] | split; [split; [lia|tauto] | tauto]].
Qed.

(** What the check does when the views have the same length, whatever that
    length is. *)
Lemma kk_is_identical_view_runs (view1 view2 : list Z) (eps : Z) :
  length view1 = length view2 ->
  kk_is_identical_view val_type KAT_abs view1 view2 eps =
  Some (negb (0 <? foldl (count_step val_type KAT_abs eps) 0
                     (zip view1 view2)),
        (FunctorCall <$> seq 0 (length view1)) ++ [FenceReached]).
Proof.
  intros Hlen. unfold kk_is_identical_view.
  rewrite (proj2 (Nat.eqb_eq _ _) Hlen). simpl.
  rewrite (parallel_reduce_fold (count_step val_type KAT_abs eps)
             (zip view1 view2))
    by (apply IsIdenticalFunctor_reads || (rewrite length_zip_with; lia)).
  rewrite Nat2Z.id, take_ge by (rewrite length_zip_with; lia). simpl.
  destruct (0 <? _); reflexivity.
Qed.

End IsIdenticalMore.

(** X13.  The equality check returns for every pair of views and every
    tolerance: the length test keeps the functor from reading either view
    outside its extent.  It invokes the functor once per index and then
    reaches the fence exactly when the lengths agree. *)
Theorem is_identical_always_returns (val_type : int_type) (KAT_abs : Z -> Z)
    (view1 view2 : list Z) (eps : Z) :
  exists b : bool,
    result (kk_is_identical_view val_type KAT_abs view1 view2 eps) = Some b /\
    events (kk_is_identical_view val_type KAT_abs view1 view2 eps) =
    Some (if decide (length view1 = length view2)
          then (FunctorCall <$> seq 0 (length view1)) ++ [FenceReached]
          else []).
Proof.
  destruct (decide (length view1 = length view2)) as [Hlen|Hlen].
  - rewrite kk_is_identical_view_runs by exact Hlen.
    eexists. split; reflexivity.
  - rewrite kk_is_identical_view_differing_lengths by exact Hlen.
    exists false. split; reflexivity.
Qed.

(** X14.  A view is identical to itself for every tolerance that is at least the
    magnitude of zero. *)
Theorem is_identical_reflexive (val_type : int_type) (KAT_abs : Z -> Z)
    (view : list Z) (eps : Z) :
  Z.of_nat (length view) < 2 ^ 64 -> KAT_abs 0 <= eps ->
  result (kk_is_identical_view val_type KAT_abs view view eps) = Some true.
Proof.
  intros Hbound Heps.
  rewrite kk_is_identical_view_equal_lengths by (reflexivity || exact Hbound).
  simpl. f_equal. apply Nat.eqb_eq, mismatch_count_zero.
  intros i x1 x2 H1 H2. rewrite H1 in H2. injection H2 as <-.
  unfold val_diff. simpl. rewrite Z.sub_diag.
  rewrite (cast_id val_type 0 (in_range_zero val_type)). exact Heps.
Qed.

Lemma is_identical_reflexive_witness :
  result (kk_is_identical_view uint32_t (ArithTraits_abs uint32_t)
            [4; 0; 9] [4; 0; 9] 0) = Some true.
Proof.
  apply (is_identical_reflexive uint32_t (ArithTraits_abs uint32_t)
           [4; 0; 9] 0).
  - simpl. lia.
  - apply Z.leb_le. reflexivity.
Defined.



Lemma kk_is_identical_view_Forall (val_type : int_type) (KAT_abs : Z -> Z)
    (view1 view2 : list Z) (eps : Z) :
  Z.of_nat (length view1) < 2 ^ 64 ->
  exists b : bool,
    result (kk_is_identical_view val_type KAT_abs view1 view2 eps) = Some b /\
    (b = true <->
     length view1 = length view2 /\
     Forall (fun p => val_diff val_type KAT_abs p <= eps) (zip view1 view2)).
Proof.
  intros Hbound. destruct (decide (length view1 = length view2)) as [Hlen|Hlen].
  - exists (Nat.eqb (mismatch_count val_type KAT_abs view1 view2 eps) 0). split.
    + rewrite kk_is_identical_view_equal_lengths by assumption. reflexivity.
    + rewrite Nat.eqb_eq, mismatch_count_zero_Forall. tauto.
  - exists false. split.
    + rewrite kk_is_identical_view_differing_lengths by assumption. reflexivity.
    + split; [discriminate | tauto].
Qed.

Lemma range_width (t : int_type) : max_value t - min_value t = modulus t - 1.
Proof.
  pose proof (modulus_twice_half t). unfold max_value, min_value.
  destruct (is_signed t); lia.
Qed.

(** Two values of a type whose difference converts to zero are equal. *)
Lemma cast_sub_zero (t : int_type) (x1 x2 : Z) :
  in_range t x1 -> in_range t x2 -> (cast t (x1 - x2) = 0 <-> x1 = x2).
Proof.
  intros [Hmin1 Hmax1] [Hmin2 Hmax2]. split.
  - intros Hzero. destruct (cast_eq_shift t (x1 - x2)) as [k Hk].
    pose proof (range_width t) as Hwidth. pose proof (modulus_pos t) as Hm.
    rewrite Hzero in Hk.
    assert (k = 0) as -> by nia. lia.
  - intros ->. rewrite Z.sub_diag. apply cast_id, in_range_zero.
Qed.

(** X16.  With a zero tolerance, and a magnitude that vanishes at zero only, two
    views of values of the value type are identical exactly when they are
    equal. *)
Theorem is_identical_zero_tolerance (val_type : int_type) (KAT_abs : Z -> Z)
    (view1 view2 : list Z) :
  (forall z : Z, KAT_abs z <= 0 <-> z = 0) ->
  Forall (in_range val_type) view1 -> Forall (in_range val_type) view2 ->
  Z.of_nat (length view1) < 2 ^ 64 ->
  exists b : bool,
    result (kk_is_identical_view val_type KAT_abs view1 view2 0) = Some b /\
    (b = true <-> view1 = view2).
Proof.
  intros Habs Hin1 Hin2 Hbound.
  destruct (kk_is_identical_view_Forall val_type KAT_abs view1 view2 0 Hbound)
    as (b & Hb & Hiff).
  exists b. split; [exact Hb|]. rewrite Hiff.
  rewrite (Forall_iff_under
             (fun p : Z * Z => in_range val_type p.1 /\ in_range val_type p.2)
             _ (fun p : Z * Z => p.1 = p.2))
    by (try apply Forall_zip_components; auto;
        intros p [H1 H2]; unfold val_diff;
        rewrite Habs; apply cast_sub_zero; assumption).
  split.
  - intros [Hlen Hall]. apply Forall_zip_eq; assumption.
  - intros ->. split; [reflexivity | apply Forall_zip_eq; reflexivity].
Qed.

Lemma is_identical_zero_tolerance_witness :
  exists b : bool,
    result (kk_is_identical_view uint8_t Z.abs [1; 255; 3] [1; 255; 3] 0)
      = Some b /\
    (b = true <-> [1; 255; 3] = [1; 255; 3]).
Proof.
  apply (is_identical_zero_tolerance uint8_t Z.abs [1; 255; 3] [1; 255; 3]).
  - intros z. lia.
  - repeat constructor; in_range_by_evaluation.
  - repeat constructor; in_range_by_evaluation.
  - simpl. lia.
Defined.

(** X17.  The number of mismatches the reduction of the check reports never
    grows with the tolerance, and never exceeds the number of entries. *)
Theorem mismatch_counter_antitone (val_type : int_type) (KAT_abs : Z -> Z)
    (view1 view2 : list Z) (eps0 eps1 : Z) :
  length view1 = length view2 ->
  Z.of_nat (length view1) < 2 ^ 64 ->
  eps0 <= eps1 ->
  exists c0 c1 : Z,
    result (parallel_reduce (my_exec_space 0 (Z.of_nat (length view1)))
              (IsIdenticalFunctor val_type KAT_abs view1 view2 eps0))
      = Some c0 /\
    result (parallel_reduce (my_exec_space 0 (Z.of_nat (length view1)))
              (IsIdenticalFunctor val_type KAT_abs view1 view2 eps1))
      = Some c1 /\
    0 <= c1 <= c0 /\ c0 <= Z.of_nat (length view1).
Proof.
  intros Hlen Hbound Heps.
  exists (Z.of_nat (mismatch_count val_type KAT_abs view1 view2 eps0)),
         (Z.of_nat (mismatch_count val_type KAT_abs view1 view2 eps1)).
  split; [|split].
  - rewrite parallel_reduce_IsIdenticalFunctor by assumption. reflexivity.
  - rewrite parallel_reduce_IsIdenticalFunctor by assumption. reflexivity.
  - pose proof (mismatch_count_antitone val_type KAT_abs view1 view2
                  eps0 eps1 Heps) as Hle.
    pose proof (length_filter_le (exceeds val_type KAT_abs eps0)
                  (zip view1 view2)) as Hmax.
    rewrite length_zip_with in Hmax. unfold mismatch_count in *. lia.
Qed.

Lemma mismatch_counter_antitone_witness :
  exists c0 c1 : Z,
    result (parallel_reduce
              (my_exec_space 0 (Z.of_nat (length [1; 9; 3; 0])))
              (IsIdenticalFunctor int32_t Z.abs [1; 9; 3; 0] [1; 4; 3; 7] 2))
      = Some c0 /\
    result (parallel_reduce
              (my_exec_space 0 (Z.of_nat (length [1; 9; 3; 0])))
              (IsIdenticalFunctor int32_t Z.abs [1; 9; 3; 0] [1; 4; 3; 7] 6))
      = Some c1 /\
    0 <= c1 <= c0 /\ c0 <= Z.of_nat (length [1; 9; 3; 0]).
Proof.
  apply (mismatch_counter_antitone int32_t Z.abs [1; 9; 3; 0] [1; 4; 3; 7]
           2 6).
  - reflexivity.
  - simpl. lia.
  - lia.
Defined.

(** The difference of two values of an unsigned type, in that type. *)
Lemma cast_sub_unsigned (t : int_type) (x1 x2 : Z) :
  is_signed t = false -> in_range t x1 -> in_range t x2 ->
  cast t (x1 - x2) =
  if x2 <=? x1 then x1 - x2 else modulus t - (x2 - x1).
Proof.
  unfold in_range, min_value, max_value. intros Hunsigned.
  rewrite Hunsigned. intros H1 H2.
  assert (forall z, 0 <= z <= modulus t - 1 -> cast t z = z) as Hid.
  { intros z Hz. apply cast_id. unfold in_range, min_value, max_value.
    rewrite Hunsigned. exact Hz. }
  destruct (Z.leb_spec x2 x1) as [Hle|Hlt].
  - apply Hid. lia.
  - rewrite <- (cast_shift t (x1 - x2) 1).
    replace (x1 - x2 + 1 * modulus t) with (modulus t - (x2 - x1)) by lia.
    apply Hid. lia.
Qed.

(** X18.  On an unsigned value type the difference wraps around.  With a
    magnitude that is the identity on non-negative values, an entry of
    [view1] at or above the entry of [view2] is compared through their
    distance, but an entry of [view1] below the entry of [view2] is compared
    through [2^bits] minus their distance: the check is not symmetric in the
    two views. *)
Theorem is_identical_unsigned_wraps (val_type : int_type) (KAT_abs : Z -> Z)
    (view1 view2 : list Z) (eps : Z) :
  is_signed val_type = false ->
  (forall z : Z, 0 <= z -> KAT_abs z = z) ->
  Forall (in_range val_type) view1 -> Forall (in_range val_type) view2 ->
  Z.of_nat (length view1) < 2 ^ 64 ->
  exists b : bool,
    result (kk_is_identical_view val_type KAT_abs view1 view2 eps) = Some b /\
    (b = true <->
     length view1 = length view2 /\
     Forall (fun p : Z * Z =>
               (if p.2 <=? p.1 then p.1 - p.2
                else modulus val_type - (p.2 - p.1)) <= eps)
            (zip view1 view2)).
Proof.
  intros Hunsigned Habs Hin1 Hin2 Hbound.
  destruct (kk_is_identical_view_Forall val_type KAT_abs view1 view2 eps Hbound)
    as (b & Hb & Hiff).
  exists b. split; [exact Hb|]. rewrite Hiff.
  rewrite (Forall_iff_under
             (fun p : Z * Z => in_range val_type p.1 /\ in_range val_type p.2)
             (fun p => val_diff val_type KAT_abs p <= eps)
             (fun p : Z * Z =>
                (if p.2 <=? p.1 then p.1 - p.2
                 else modulus val_type - (p.2 - p.1)) <= eps));
    [reflexivity | apply Forall_zip_components; assumption |].
  intros p [H1 H2]. unfold val_diff.
  rewrite (cast_sub_unsigned val_type _ _ Hunsigned H1 H2).
  rewrite Habs; [reflexivity|].
  unfold in_range, min_value, max_value in H1, H2.
  rewrite Hunsigned in H1, H2. destruct (Z.leb_spec p.2 p.1); lia.
Qed.

Lemma is_identical_unsigned_wraps_witness :
  exists b : bool,
    result (kk_is_identical_view uint8_t Z.abs [1; 7] [2; 7] 1) = Some b /\
    (b = true <->
     length [1; 7] = length [2; 7] /\
     Forall (fun p : Z * Z =>
               (if p.2 <=? p.1 then p.1 - p.2
                else modulus uint8_t - (p.2 - p.1)) <= 1)
            (zip [1; 7] [2; 7])).
Proof.
  apply (is_identical_unsigned_wraps uint8_t Z.abs [1; 7] [2; 7] 1).
  - reflexivity.
  - intros z Hz. lia.
  - repeat constructor; in_range_by_evaluation.
  - repeat constructor; in_range_by_evaluation.
  - simpl. lia.
Defined.

(** The asymmetry at work: [1] against [2] differs beyond tolerance 1 on
    [uint8_t], [2] against [1] does not. *)
Example unsigned_check_is_not_symmetric :
  result (kk_is_identical_view uint8_t (ArithTraits_abs uint8_t) [1] [2] 1)
    = Some false /\
  result (kk_is_identical_view uint8_t (ArithTraits_abs uint8_t) [2] [1] 1)
    = Some true.
Proof. split; reflexivity. Qed.

(** X19.  Where no difference [view1[i] - view2[i]] overflows the value type or
    is the negative of a value that does not fit it, and the magnitude is
    the absolute value there, the check is the mathematical one: true
    exactly when the lengths agree and every [|view1[i] - view2[i]|] is at
    most the tolerance. *)
Theorem is_identical_without_overflow (val_type : int_type) (KAT_abs : Z -> Z)
    (view1 view2 : list Z) (eps : Z) :
  (forall z : Z, - max_value val_type <= z <= max_value val_type ->
                 KAT_abs z = Z.abs z) ->
  Forall (fun p : Z * Z =>
            in_range val_type (p.1 - p.2) /\
            - max_value val_type <= p.1 - p.2) (zip view1 view2) ->
  Z.of_nat (length view1) < 2 ^ 64 ->
  exists b : bool,
    result (kk_is_identical_view val_type KAT_abs view1 view2 eps) = Some b /\
    (b = true <->
     length view1 = length view2 /\
     Forall (fun p : Z * Z => Z.abs (p.1 - p.2) <= eps) (zip view1 view2)).
Proof.
  intros Habs Hfit Hbound.
  destruct (kk_is_identical_view_Forall val_type KAT_abs view1 view2 eps Hbound)
    as (b & Hb & Hiff).
  exists b. split; [exact Hb|]. rewrite Hiff.
  rewrite (Forall_iff_under _
             (fun p => val_diff val_type KAT_abs p <= eps)
             (fun p : Z * Z => Z.abs (p.1 - p.2) <= eps) _ Hfit);
    [reflexivity|].
  intros p [Hin Hlow]. unfold val_diff.
  rewrite (cast_id val_type _ Hin), Habs; [reflexivity|].
  destruct Hin as [_ Hmax]. lia.
Qed.

Lemma is_identical_without_overflow_witness :
  exists b : bool,
    result (kk_is_identical_view int8_t Z.abs [1; -100; 3] [4; 20; 3] 5)
      = Some b /\
    (b = true <->
     length [1; -100; 3] = length [4; 20; 3] /\
     Forall (fun p : Z * Z => Z.abs (p.1 - p.2) <= 5)
            (zip [1; -100; 3] [4; 20; 3])).
Proof.
  apply (is_identical_without_overflow int8_t Z.abs [1; -100; 3] [4; 20; 3] 5).
  - intros z Hz. reflexivity.
  - repeat constructor; simpl; try in_range_by_evaluation;
      apply Z.leb_le; reflexivity.
  - simpl. lia.
Defined.

(** ** Reductions over a prefix of the views *)

(** X20.  [kk_reduce_view] with a count below the extent of the view sums its
    first [num_elements] entries only, in the value type: the result is a
    value of the type, it is 0 for a zero count, and entries at or beyond
    the count have no influence on it. *)
Theorem reduce_view_reads_the_prefix (value_type : int_type) (arr arr' : list Z)
    (n : Z) :
  in_range size_t n ->
  n <= Z.of_nat (length arr) -> n <= Z.of_nat (length arr') ->
  take (Z.to_nat n) arr = take (Z.to_nat n) arr' ->
  exists total : Z,
    result (kk_reduce_view value_type n arr) = Some total /\
    result (kk_reduce_view value_type n arr') = Some total /\
    total = cast value_type (sum_Z (take (Z.to_nat n) arr)) /\
    in_range value_type total /\
    (n = 0 -> total = 0).
Proof.
  intros Hrange Hn Hn' Hsame.
  exists (sum_in value_type (take (Z.to_nat n) arr)).
  split; [|split; [|split; [|split]]].
  - rewrite kk_reduce_view_eq by assumption. reflexivity.
  - rewrite kk_reduce_view_eq by assumption. rewrite Hsame. reflexivity.
  - apply sum_in_cast.
  - rewrite sum_in_cast. apply cast_in_range.
  - intros ->. reflexivity.
Qed.

Lemma reduce_view_reads_the_prefix_witness :
  exists total : Z,
    result (kk_reduce_view int8_t 2 [100; 100; 5]) = Some total /\
    result (kk_reduce_view int8_t 2 [100; 100; -9; 4]) = Some total /\
    total = cast int8_t (sum_Z (take (Z.to_nat 2) [100; 100; 5])) /\
    in_range int8_t total /\
    (2 = 0 -> total = 0).
Proof.
  apply (reduce_view_reads_the_prefix int8_t [100; 100; 5] [100; 100; -9; 4] 2).
  - in_range_by_evaluation.
  - simpl. lia.
  - simpl. lia.
  - reflexivity.
Defined.

(** X21.  [kk_reduce_diff_view] does not compare the extents of its two views: a
    count that exceeds neither gives the sum of the differences over the
    first [num_elements] indices, converted to the value type, also when
    one view is longer than the other. *)
Theorem reduce_diff_view_reads_the_prefix (value_type : int_type)
    (begins ends : list Z) (n : Z) :
  in_range size_t n ->
  n <= Z.of_nat (length begins) -> n <= Z.of_nat (length ends) ->
  exists total : Z,
    result (kk_reduce_diff_view value_type n begins ends) = Some total /\
    total = cast value_type
              (sum_Z (zip_with Z.sub (take (Z.to_nat n) ends)
                                     (take (Z.to_nat n) begins))) /\
    in_range value_type total /\
    (n = 0 -> total = 0).
Proof.
  intros Hrange Hb He. pose proof (proj1 (size_t_range n) Hrange) as Hpos.
  exists (cast value_type
            (sum_Z (zip_with Z.sub (take (Z.to_nat n) ends)
                                   (take (Z.to_nat n) begins)))).
  split; [|split; [|split]].
  - unfold kk_reduce_diff_view. rewrite (cast_id size_t n Hrange).
    rewrite (parallel_reduce_fold (diff_step value_type) (zip begins ends))
      by (apply DiffReductionFunctor_reads || (rewrite length_zip_with; lia)).
    simpl. f_equal. rewrite zip_with_take.
    rewrite <- (cast_id value_type (foldl _ _ _))
      by apply foldl_diff_step_in_range, in_range_zero.
    apply foldl_diff_step_cast.
  - reflexivity.
  - apply cast_in_range.
  - intros ->. simpl. apply cast_id, in_range_zero.
Qed.

Lemma reduce_diff_view_reads_the_prefix_witness :
  exists total : Z,
    result (kk_reduce_diff_view int32_t 2 [0; 2; 5; 9] [2; 5; 9]) = Some total
    /\
    total = cast int32_t
              (sum_Z (zip_with Z.sub (take (Z.to_nat 2) [2; 5; 9])
                                     (take (Z.to_nat 2) [0; 2; 5; 9]))) /\
    in_range int32_t total /\
    (2 = 0 -> total = 0).
Proof.
  apply (reduce_diff_view_reads_the_prefix int32_t [0; 2; 5; 9] [2; 5; 9] 2).
  - in_range_by_evaluation.
  - simpl. lia.
  - simpl. lia.
Defined.
